(** * gate: a counting semaphore built on a buffered Go channel

    A verification development for [gate.go].  A [Gate] wraps a buffered
    channel of empty structs and a mutex.  Sending into the channel takes one
    unit of capacity, receiving from it gives one unit back.

    The model has three layers:
    - Go's [int] (64-bit two's complement) as [Z] with explicit wrap-around;
    - the channel and the mutex as a record, each primitive operation a
      function into an [outcome] (returns, blocks, or panics);
    - every method of [gate.go] as the sequence of primitive operations its
      body performs, run either by one goroutine alone ([exec]) or by a pool
      of goroutines interleaved one primitive at a time ([step]). *)

From Stdlib Require Import ZArith Bool String Lia.
From stdpp Require Import base tactics option list relations.

Open Scope Z_scope.

(** ** Go's [int] *)

Module GoInt.

(** [int] is 64 bits wide on the platforms Go calls 64-bit. *)
Definition int_bits : Z := 64.
Definition min_int : Z := - 2 ^ (int_bits - 1).
Definition max_int : Z := 2 ^ (int_bits - 1) - 1.

Definition is_int (z : Z) : Prop := min_int <= z <= max_int.

(** Two's complement wrap-around of a mathematical result. *)
Definition wrap (z : Z) : Z := (z - min_int) mod 2 ^ int_bits + min_int.

(** Unary minus on [int]: [-n]. *)
Definition neg (n : Z) : Z := wrap (- n).

(** [i++] *)
Definition incr (i : Z) : Z := wrap (i + 1).

End GoInt.

(** ** The channel and the mutex *)

(** A [chan struct{}]: the buffered elements are all the empty struct, so the
    buffer is determined by how many there are.  [cap] and [len] are Go's
    builtins of the same names. *)
Record chan := Chan { cap : Z; len : Z }.

(** [make(chan struct{}, size)]: a negative size is a run-time panic
    ("makechan: size out of range"), size zero gives an unbuffered channel.
    The element type has size zero, so no non-negative size is too large. *)
Definition make_chan (size : Z) : option chan :=
  if size <? 0 then None else Some {| cap := size; len := 0 |}.

(** [type Gate struct { c chan struct{}; m sync.Mutex }]; the mutex is its
    locked flag. *)
Record Gate := mkGate { c : chan; m : bool }.

(** The number of units currently held. *)
Definition held (g : Gate) : Z := len (c g).
Definition capacity (g : Gate) : Z := cap (c g).

Definition with_len (g : Gate) (l : Z) : Gate :=
  {| c := {| cap := cap (c g); len := l |}; m := m g |}.
Definition with_mutex (g : Gate) (b : bool) : Gate :=
  {| c := c g; m := b |}.

(** What a goroutine's operation does: it returns, it blocks (no other
    goroutine helping), or it panics.  Each carries the state it leaves. *)
Inductive outcome :=
| Returns (g : Gate)
| Blocks (g : Gate)
| Panics (msg : string) (g : Gate).

Definition state_of (o : outcome) : Gate :=
  match o with Returns g | Blocks g | Panics _ g => g end.

Definition panicked (o : outcome) : bool :=
  match o with Panics _ _ => true | _ => false end.

(** The primitive operations the methods are made of. *)
Inductive action :=
| Send                      (* g.c <- struct{}{} *)
| Recv                      (* <-g.c *)
| MutexLock                 (* g.m.Lock() *)
| MutexUnlock               (* g.m.Unlock() *)
| Panic (msg : string).     (* panic(msg) *)

Definition prog := list action.

(** One primitive operation by one goroutine, nobody else running. A send
    needs a free buffer slot, a receive a buffered element. *)
Definition perform (a : action) (g : Gate) : outcome :=
  match a with
  | Send => if len (c g) <? cap (c g) then Returns (with_len g (len (c g) + 1)) else Blocks g
  | Recv => if 0 <? len (c g) then Returns (with_len g (len (c g) - 1)) else Blocks g
  | MutexLock => if m g then Blocks g else Returns (with_mutex g true)
  | MutexUnlock => if m g then Returns (with_mutex g false)
                   else Panics "sync: unlock of unlocked mutex" g
  | Panic msg => Panics msg g
  end.

(** A goroutine running a sequence of primitives on its own. *)
Fixpoint exec (p : prog) (g : Gate) : outcome :=
  match p with
  | [] => Returns g
  | a :: p' =>
      match perform a g with
      | Returns g' => exec p' g'
      | o => o
      end
  end.

(** ** Loops *)

(** [for i := start; i < n; i++ { body }], unrolled.  The fuel bounds the
    number of iterations; [for_loop] supplies enough of it. *)
Fixpoint loop_from (fuel : nat) (i n : Z) (body : prog) : prog :=
  if i <? n then
    match fuel with
    | O => []
    | S fuel' => body ++ loop_from fuel' (GoInt.incr i) n body
    end
  else [].

(** [for i := 0; i < n; i++ { body }] *)
Definition for_loop (n : Z) (body : prog) : prog :=
  loop_from (Z.to_nat n) 0 n body.

(** [k] copies of [body], one after the other. *)
Definition times (k : nat) (body : prog) : prog := mjoin (replicate k body).

(** ** The methods of [gate.go] *)

(** [func New(max int) *Gate { return &Gate{c: make(chan struct{}, max)} }];
    [None] is the panic of [make]. *)
Definition New (max : Z) : option Gate :=
  ch ← make_chan max; Some {| c := ch; m := false |}.

(** [func (g *Gate) Lock() { g.c <- struct{}{} }] *)
Definition Lock : prog := [Send].

(** [func (g *Gate) Unlock() { <-g.c }] *)
Definition Unlock : prog := [Recv].

(** [func (g *Gate) Done() { <-g.c }] *)
Definition Done : prog := [Recv].

(** [func (g *Gate) Add(n int)] *)
Definition Add (g : Gate) (n : Z) : prog :=
  let c := cap (c g) in
  if (n >? c) || (GoInt.neg n >? c) then
    [Panic "gate: out of range Add argument"]
  else if n >? 0 then
    for_loop n [Send]
  else
    for_loop (GoInt.neg n) [Recv].

(** [func (g *Gate) Wait()]; the deferred [g.m.Unlock()] runs last. *)
Definition Wait (g : Gate) : prog :=
  [MutexLock]
    ++ for_loop (cap (c g)) [Send]
    ++ for_loop (cap (c g)) [Recv]
    ++ [MutexUnlock].

(** A method call, and the primitives a list of calls on [g] performs. *)
Inductive call :=
| CallLock
| CallUnlock
| CallAdd (n : Z)
| CallDone
| CallWait.

Definition body (g : Gate) (k : call) : prog :=
  match k with
  | CallLock => Lock
  | CallUnlock => Unlock
  | CallAdd n => Add g n
  | CallDone => Done
  | CallWait => Wait g
  end.

Definition script (g : Gate) (ks : list call) : prog := mjoin (body g <$> ks).

(** ** Goroutines *)

(** A gate shared by a pool of goroutines, each with the primitives it has
    still to perform. *)
Record config := Config { gate : Gate; pool : list prog }.

(** One scheduling step.  Either one goroutine performs a primitive that does
    not block, or a pending send meets a pending receive and both complete
    (the hand-off Go does between a sender and a receiver, the only way an
    unbuffered channel moves).  A goroutine at [Panic] takes the process
    down: it has no step. *)
Inductive step : config -> config -> Prop :=
| step_perform g g' ts i a rest :
    ts !! i = Some (a :: rest) ->
    perform a g = Returns g' ->
    step (Config g ts) (Config g' (<[i := rest]> ts))
| step_handoff g ts i j ri rj :
    i ≠ j ->
    ts !! i = Some (Send :: ri) ->
    ts !! j = Some (Recv :: rj) ->
    step (Config g ts) (Config g (<[j := rj]> (<[i := ri]> ts))).

Definition steps : config -> config -> Prop := rtc step.

(** The data model's invariant. *)
Definition gate_inv (g : Gate) : Prop := 0 <= held g <= capacity g.

(** The gates used in the examples. *)
Definition gate_of (cp l : Z) : Gate := {| c := {| cap := cp; len := l |}; m := false |}.

(** The invariant together with the capacity fixed at construction. *)
Definition bounded (max : Z) (g : Gate) : Prop :=
  0 <= held g <= capacity g ∧ capacity g = max.

(** No goroutine has a receive anywhere in what it still has to do: nobody
    is in, or will call, Unlock, Done, a negative Add, or Wait. *)
Definition no_release (ts : list prog) : Prop :=
  ∀ j p, ts !! j = Some p -> Recv ∉ p.

(** Goroutine [i] is at the send of a Lock, the Gate is full, and nobody
    has a release to perform. *)
Definition full_and_waiting (i : nat) (rest : prog) (cfg : config) : Prop :=
  pool cfg !! i = Some (Send :: rest)
  ∧ no_release (pool cfg)
  ∧ held (gate cfg) = capacity (gate cfg).

(** The holder of the only unit calls Unlock while a second goroutine is
    in Lock: the configurations that can follow. *)
Definition handover_start : config := Config (gate_of 1 1) [Unlock; Lock].
Definition handover_released : config := Config (gate_of 1 0) [[]; Lock].
Definition handover_done : config := Config (gate_of 1 1) [[]; []].

(** ** The package-level default gate *)

(** [var defaultGate = New(runtime.NumCPU())]; [num_cpu] is what
    [runtime.NumCPU()] returns when the package is initialised. *)
Definition defaultGate (num_cpu : Z) : option Gate := New num_cpu.

(** The package-level functions, each delegating to the default gate [dg]. *)
Module Pkg.

(** [func Lock() { defaultGate.Lock() }] *)
Definition Lock (dg : Gate) : prog := Lock.

(** [func Unlock() { defaultGate.Unlock() }] *)
Definition Unlock (dg : Gate) : prog := Unlock.

(** [func Add(n int) { defaultGate.Add(n) }] *)
Definition Add (dg : Gate) (n : Z) : prog := Add dg n.

(** [func Done() { defaultGate.Done() }] *)
Definition Done (dg : Gate) : prog := Done.

(** [func Wait() { defaultGate.Wait() }] *)
Definition Wait (dg : Gate) : prog := Wait dg.

End Pkg.

(** ** Accounting *)

(** The sum of a weight over the primitives a goroutine has still to
    perform, and over a pool. *)
Definition weight (w : action -> Z) (p : prog) : Z :=
  foldr (λ a acc, w a + acc) 0 p.

Definition total (f : prog -> Z) (ts : list prog) : Z :=
  foldr (λ p acc, f p + acc) 0 ts.

(** A receive gives a unit back, a send takes one. *)
Definition unit_weight (a : action) : Z :=
  match a with Recv => 1 | Send => -1 | _ => 0 end.

Definition mutex_weight (a : action) : Z :=
  match a with MutexUnlock => 1 | MutexLock => -1 | _ => 0 end.

(** Receives left to do minus sends left to do.  For a goroutine that gives
    back in the end exactly what it takes, this is the number of units it
    has taken and not yet given back. *)
Definition owned (p : prog) : Z := weight unit_weight p.

(** Likewise for the mutex: 1 while the goroutine is between the
    [g.m.Lock()] of a Wait and its deferred [g.m.Unlock()]. *)
Definition mutex_owned (p : prog) : Z := weight mutex_weight p.

(** At no point of what is left does the weight go negative: the goroutine
    never gives back more than it has taken. *)
Fixpoint safe (w : action -> Z) (p : prog) : bool :=
  (0 <=? weight w p)
  && match p with
     | [] => true
     | _ :: q => safe w q
     end.

(** A goroutine that takes units and gives every one of them back, never
    giving back more than it has. *)
Definition balanced (p : prog) : Prop :=
  owned p = 0 ∧ safe unit_weight p = true.

(** A goroutine between a Lock (or a positive Add) and the matching
    release: its next primitive is a receive. *)
Definition holding (p : prog) : bool :=
  match p with Recv :: _ => true | _ => false end.

(** What is left of a goroutine that runs Lock, Unlock some number of times:
    it is either about to Lock or about to Unlock. *)
Definition paired (p : prog) : Prop :=
  ∃ k, p = times k (Lock ++ Unlock) ∨ p = Unlock ++ times k (Lock ++ Unlock).

Definition finished (cfg : config) : Prop := Forall (λ p, p = []) (pool cfg).

(** How a goroutine uses the Gate: a critical section between Lock and
    Unlock, or a Wait. *)
Inductive usage := Critical | WaitIdle.

Definition usage_calls (u : usage) : list call :=
  match u with
  | Critical => [CallLock; CallUnlock]
  | WaitIdle => [CallWait]
  end.

(** The primitives of a list of usages on a Gate of capacity [n]. *)
Definition usage_prog (n : nat) (u : usage) : prog :=
  match u with
  | Critical => Lock ++ Unlock
  | WaitIdle => [MutexLock] ++ times n Lock ++ times n Unlock ++ [MutexUnlock]
  end.

Definition usages_prog (n : nat) (us : list usage) : prog :=
  mjoin (usage_prog n <$> us).

(** What is left of a goroutine that goes through a list of usages: it is
    between two usages, or inside a critical section, or in the first or in
    the second loop of a Wait. *)
Definition orderly (n : nat) (p : prog) : Prop :=
  ∃ us,
    p = usages_prog n us
    ∨ p = Unlock ++ usages_prog n us
    ∨ (∃ k, (k <= n)%nat
         ∧ p = times k Lock ++ times n Unlock ++ [MutexUnlock] ++ usages_prog n us)
    ∨ (∃ k, (k <= n)%nat
         ∧ p = times k Unlock ++ [MutexUnlock] ++ usages_prog n us).

(** No goroutine has a send anywhere in what it still has to do: nobody is
    in, or will call, Lock, a positive Add, or Wait. *)
Definition no_acquire (ts : list prog) : Prop :=
  ∀ j p, ts !! j = Some p -> Send ∉ p.

(** Goroutine [i] is at the receive of an Unlock or Done, nothing is held,
    and nobody has a unit to take. *)
Definition empty_and_waiting (i : nat) (rest : prog) (cfg : config) : Prop :=
  pool cfg !! i = Some (Recv :: rest)
  ∧ no_acquire (pool cfg)
  ∧ held (gate cfg) = 0.

(** The number of primitives the goroutines of a pool have still to perform. *)
Definition remaining (cfg : config) : Z :=
  total (λ p, Z.of_nat (length p)) (pool cfg).

(** The primitive a goroutine is at. *)
Definition at_send (p : prog) : bool :=
  match p with Send :: _ => true | _ => false end.
Definition at_mutex_lock (p : prog) : bool :=
  match p with MutexLock :: _ => true | _ => false end.
Definition at_mutex_unlock (p : prog) : bool :=
  match p with MutexUnlock :: _ => true | _ => false end.

(** * Properties *)

(** ** Integers and loops *)

Lemma min_int_value : GoInt.min_int = -9223372036854775808.
Proof. reflexivity. Qed.

Lemma max_int_value : GoInt.max_int = 9223372036854775807.
Proof. reflexivity. Qed.

Lemma wrap_id (z : Z) : GoInt.is_int z -> GoInt.wrap z = z.
Proof.
  unfold GoInt.is_int, GoInt.wrap. rewrite min_int_value, max_int_value.
  intros Hz. change (2 ^ GoInt.int_bits) with 18446744073709551616.
  rewrite Z.mod_small; lia.
Qed.

Lemma neg_int (n : Z) :
  GoInt.is_int n -> n ≠ GoInt.min_int -> GoInt.neg n = - n.
Proof.
  unfold GoInt.is_int, GoInt.neg. rewrite min_int_value, max_int_value.
  intros Hn Hmin. apply wrap_id. unfold GoInt.is_int.
  rewrite min_int_value, max_int_value. lia.
Qed.

Lemma neg_min_int : GoInt.neg GoInt.min_int = GoInt.min_int.
Proof. reflexivity. Qed.

Lemma times_S (k : nat) (body : prog) : times (S k) body = body ++ times k body.
Proof. reflexivity. Qed.

Lemma loop_from_times (fuel : nat) (i n : Z) (body : prog) :
  GoInt.min_int <= i -> n <= GoInt.max_int -> (Z.to_nat (n - i) <= fuel)%nat ->
  loop_from fuel i n body = times (Z.to_nat (n - i)) body.
Proof.
  revert i. induction fuel as [|fuel IH]; intros i Hi Hn Hfuel.
  - simpl. replace (Z.to_nat (n - i)) with O by lia. by destruct (i <? n).
  - simpl. destruct (Z.ltb_spec i n) as [Hlt|Hge].
    + assert (Hincr : GoInt.incr i = i + 1).
      { apply wrap_id. unfold GoInt.is_int. lia. }
      rewrite Hincr, IH by lia.
      replace (Z.to_nat (n - i)) with (S (Z.to_nat (n - (i + 1)))) by lia.
      by rewrite times_S.
    + by replace (Z.to_nat (n - i)) with O by lia.
Qed.

(** The loop [for i := 0; i < n; i++] runs its body [max 0 n] times. *)
Lemma for_loop_times (n : Z) (body : prog) :
  n <= GoInt.max_int -> for_loop n body = times (Z.to_nat n) body.
Proof.
  intros Hn. unfold for_loop.
  rewrite loop_from_times by (rewrite ?min_int_value; lia).
  by rewrite Z.sub_0_r.
Qed.

Lemma for_loop_nonpos (n : Z) (body : prog) : n <= 0 -> for_loop n body = [].
Proof.
  intros Hn. unfold for_loop. replace (Z.to_nat n) with O by lia.
  simpl. by destruct (Z.ltb_spec 0 n); [lia|].
Qed.

(** ** Sequential execution *)

Lemma exec_app (p q : prog) (g : Gate) :
  exec (p ++ q) g =
    match exec p g with
    | Returns g' => exec q g'
    | o => o
    end.
Proof.
  revert g. induction p as [|a p IH]; intros g; simpl; [done|].
  destruct (perform a g); auto.
Qed.

Lemma with_len_same (g : Gate) : with_len g (len (c g)) = g.
Proof. by destruct g as [[??] ?]. Qed.

Lemma with_len_twice (g : Gate) (l l' : Z) : with_len (with_len g l) l' = with_len g l'.
Proof. reflexivity. Qed.

(** [k] sends in a row succeed when there is room for all of them. *)
Lemma exec_sends (k : nat) (g : Gate) :
  len (c g) + Z.of_nat k <= cap (c g) ->
  exec (times k [Send]) g = Returns (with_len g (len (c g) + Z.of_nat k)).
Proof.
  revert g. induction k as [|k IH]; intros g Hroom.
  - simpl. by rewrite Z.add_0_r, with_len_same.
  - rewrite times_S. simpl.
    destruct (Z.ltb_spec (len (c g)) (cap (c g))); [|lia].
    rewrite IH; simpl; [|lia]. rewrite with_len_twice. f_equal. f_equal. lia.
Qed.

(** [k] receives in a row succeed when that many units are held. *)
Lemma exec_recvs (k : nat) (g : Gate) :
  Z.of_nat k <= len (c g) ->
  exec (times k [Recv]) g = Returns (with_len g (len (c g) - Z.of_nat k)).
Proof.
  revert g. induction k as [|k IH]; intros g Hheld.
  - simpl. by rewrite Z.sub_0_r, with_len_same.
  - rewrite times_S. simpl.
    destruct (Z.ltb_spec 0 (len (c g))); [|lia].
    rewrite IH; simpl; [|lia]. rewrite with_len_twice. f_equal. f_equal. lia.
Qed.

(** Sends that run out of room block with the buffer full. *)
Lemma exec_sends_block (k : nat) (g : Gate) :
  len (c g) <= cap (c g) < len (c g) + Z.of_nat k ->
  exec (times k [Send]) g = Blocks (with_len g (cap (c g))).
Proof.
  revert g. induction k as [|k IH]; intros g Hroom; [lia|].
  rewrite times_S. simpl.
  destruct (Z.ltb_spec (len (c g)) (cap (c g))) as [Hlt|Hge].
  - rewrite IH; simpl; [done|lia].
  - replace (cap (c g)) with (len (c g)) by lia. by rewrite with_len_same.
Qed.

(** ** Construction *)

Lemma New_negative (max : Z) : max < 0 -> New max = None.
Proof.
  intros Hmax. unfold New, make_chan.
  by destruct (Z.ltb_spec max 0); [|lia].
Qed.

Lemma New_nonnegative (max : Z) : 0 <= max -> New max = Some (gate_of max 0).
Proof.
  intros Hmax. unfold New, make_chan.
  by destruct (Z.ltb_spec max 0); [lia|].
Qed.

Lemma New_inv (max : Z) (g : Gate) :
  New max = Some g -> g = gate_of max 0 ∧ 0 <= max.
Proof.
  unfold New, make_chan. destruct (Z.ltb_spec max 0); simpl; [done|].
  by intros [= <-].
Qed.

(** C2, at the input where the code departs from it: [New 0] does not
    panic.  [make] accepts a zero size, so the call returns a Gate over an
    unbuffered channel, with capacity 0 and nothing held, although the
    comment on [New] promises a panic for every non-positive capacity.
    Negative capacities do panic ([New_negative]) and positive ones give
    the Gate the claim describes ([New_nonnegative]). *)
Theorem New_zero_returns_a_gate :
  New 0 = Some (gate_of 0 0) ∧ capacity (gate_of 0 0) = 0 ∧ held (gate_of 0 0) = 0
  ∧ New (-5) = None.
Proof. done. Qed.

(** ** Lock, Unlock and Done *)

(** C3: with a unit free, Lock takes exactly one unit and returns; with
    none free (held = capacity) it blocks, leaves the Gate as it was, and no
    goroutine of a pool can perform its send on its own. *)
Theorem Lock_takes_one_or_blocks (g : Gate) :
  (held g < capacity g ->
     exec Lock g = Returns (with_len g (held g + 1))
     ∧ held (state_of (exec Lock g)) = held g + 1
     ∧ capacity (state_of (exec Lock g)) = capacity g
     ∧ m (state_of (exec Lock g)) = m g)
  ∧ (held g = capacity g ->
     exec Lock g = Blocks g ∧ ∀ g', perform Send g ≠ Returns g').
Proof.
  unfold held, capacity, Lock. simpl. split; intros Hg.
  - by destruct (Z.ltb_spec (len (c g)) (cap (c g))); [|lia].
  - by destruct (Z.ltb_spec (len (c g)) (cap (c g))); [lia|].
Qed.

Lemma Lock_takes_one_or_blocks_witness :
  exec Lock (gate_of 3 1) = Returns (gate_of 3 2)
  ∧ exec Lock (gate_of 3 3) = Blocks (gate_of 3 3).
Proof.
  split.
  - apply (proj1 (Lock_takes_one_or_blocks (gate_of 3 1))). reflexivity.
  - apply (proj2 (Lock_takes_one_or_blocks (gate_of 3 3))). reflexivity.
Defined.

(** C4: Unlock and Done are one and the same operation.  With a unit held
    it gives back exactly one; with none held it blocks: no panic, the held
    count stays 0, and the Gate is left as it was. *)
Theorem Unlock_Done_give_one_or_block (g : Gate) :
  Unlock = Done
  ∧ exec Done g = exec Unlock g
  ∧ (0 < held g ->
     exec Unlock g = Returns (with_len g (held g - 1))
     ∧ held (state_of (exec Unlock g)) = held g - 1
     ∧ capacity (state_of (exec Unlock g)) = capacity g
     ∧ m (state_of (exec Unlock g)) = m g)
  ∧ (held g = 0 ->
     exec Unlock g = Blocks g ∧ ∀ g', perform Recv g ≠ Returns g').
Proof.
  unfold held, capacity, Unlock, Done. simpl. repeat split; try intros Hg.
  - by destruct (Z.ltb_spec 0 (len (c g))); [|lia].
  - by destruct (Z.ltb_spec 0 (len (c g))); [|lia].
  - by destruct (Z.ltb_spec 0 (len (c g))); [|lia].
  - by destruct (Z.ltb_spec 0 (len (c g))); [|lia].
  - by destruct (Z.ltb_spec 0 (len (c g))); [lia|].
  - by destruct (Z.ltb_spec 0 (len (c g))); [lia|].
Qed.

Lemma Unlock_Done_give_one_or_block_witness :
  exec Unlock (gate_of 3 2) = Returns (gate_of 3 1)
  ∧ exec Done (gate_of 3 2) = Returns (gate_of 3 1)
  ∧ exec Unlock (gate_of 3 0) = Blocks (gate_of 3 0).
Proof.
  pose proof (Unlock_Done_give_one_or_block (gate_of 3 2)) as (_ & HD & Hpos & _).
  pose proof (Unlock_Done_give_one_or_block (gate_of 3 0)) as (_ & _ & _ & Hzero).
  split; [|split].
  - apply Hpos. reflexivity.
  - rewrite HD. apply Hpos. reflexivity.
  - apply Hzero. reflexivity.
Defined.

(** C10: Lock directly followed by Unlock gives back the Gate it started
    from when a unit was free, and so does Unlock directly followed by Lock
    when a unit was held. *)
Theorem Lock_Unlock_cancel (g : Gate) :
  gate_inv g ->
  (held g < capacity g -> exec (Lock ++ Unlock) g = Returns g)
  ∧ (0 < held g -> exec (Unlock ++ Lock) g = Returns g).
Proof.
  unfold gate_inv, held, capacity, Lock, Unlock. intros Hinv. split; intros Hg; simpl.
  - destruct (Z.ltb_spec (len (c g)) (cap (c g))); [|lia]. simpl.
    destruct (Z.ltb_spec 0 (len (c g) + 1)); [|lia].
    rewrite with_len_twice, Z.add_simpl_r. by rewrite with_len_same.
  - destruct (Z.ltb_spec 0 (len (c g))); [|lia]. simpl.
    destruct (Z.ltb_spec (len (c g) - 1) (cap (c g))); [|lia].
    rewrite with_len_twice, Z.sub_add. by rewrite with_len_same.
Qed.

Lemma Lock_Unlock_cancel_witness :
  exec (Lock ++ Unlock) (gate_of 2 1) = Returns (gate_of 2 1)
  ∧ exec (Unlock ++ Lock) (gate_of 2 1) = Returns (gate_of 2 1).
Proof.
  assert (Hinv : gate_inv (gate_of 2 1)) by (unfold gate_inv, held, capacity; simpl; lia).
  split.
  - apply (proj1 (Lock_Unlock_cancel (gate_of 2 1) Hinv)). reflexivity.
  - apply (proj2 (Lock_Unlock_cancel (gate_of 2 1) Hinv)). reflexivity.
Defined.

(** ** Add *)

(** The range check of [Add] on an [int] other than the least one: it
    rejects exactly the arguments whose absolute value exceeds the capacity. *)
Lemma Add_range_check (g : Gate) (n : Z) :
  GoInt.is_int n -> n ≠ GoInt.min_int ->
  (n >? capacity g) || (GoInt.neg n >? capacity g) = (Z.abs n >? capacity g).
Proof.
  intros Hn Hmin. rewrite neg_int by done.
  destruct (Z.gtb_spec n (capacity g)), (Z.gtb_spec (- n) (capacity g)),
    (Z.gtb_spec (Z.abs n) (capacity g)); simpl; lia.
Qed.

Lemma Add_out_of_range (g : Gate) (n : Z) :
  GoInt.is_int n -> n ≠ GoInt.min_int -> capacity g < Z.abs n ->
  Add g n = [Panic "gate: out of range Add argument"]
  ∧ ∀ g', exec (Add g n) g' = Panics "gate: out of range Add argument" g'.
Proof.
  intros Hn Hmin Habs. unfold Add. fold (capacity g).
  rewrite Add_range_check by done.
  by destruct (Z.gtb_spec (Z.abs n) (capacity g)); [|lia].
Qed.

Lemma Add_positive (g : Gate) (n : Z) :
  capacity g <= GoInt.max_int -> 0 < n <= capacity g ->
  Add g n = times (Z.to_nat n) [Send].
Proof.
  intros Hcap Hn. unfold Add. fold (capacity g).
  destruct (Z.gtb_spec n (capacity g)); [lia|]. simpl.
  assert (GoInt.neg n = - n) as ->.
  { apply neg_int; unfold GoInt.is_int in *;
      rewrite ?min_int_value, ?max_int_value in *; lia. }
  destruct (Z.gtb_spec (- n) (capacity g)); [lia|].
  destruct (Z.gtb_spec n 0); [|lia].
  apply for_loop_times. lia.
Qed.

Lemma Add_negative (g : Gate) (n : Z) :
  capacity g <= GoInt.max_int -> - capacity g <= n < 0 ->
  Add g n = times (Z.to_nat (- n)) [Recv].
Proof.
  intros Hcap Hn. unfold Add. fold (capacity g).
  destruct (Z.gtb_spec n (capacity g)); [lia|]. simpl.
  assert (GoInt.neg n = - n) as ->.
  { apply neg_int; unfold GoInt.is_int in *;
      rewrite ?min_int_value, ?max_int_value in *; lia. }
  destruct (Z.gtb_spec (- n) (capacity g)); [lia|].
  destruct (Z.gtb_spec n 0); [lia|].
  apply for_loop_times. lia.
Qed.

Lemma Add_zero (g : Gate) : 0 <= capacity g -> Add g 0 = [].
Proof.
  intros Hcap. unfold Add. fold (capacity g). change (GoInt.neg 0) with 0.
  destruct (Z.gtb_spec 0 (capacity g)); [lia|]. simpl.
  by apply for_loop_nonpos.
Qed.

Lemma exec_sends_no_panic (k : nat) (g : Gate) :
  panicked (exec (times k [Send]) g) = false.
Proof.
  revert g. induction k as [|k IH]; intros g; [done|].
  rewrite times_S. simpl. by destruct (len (c g) <? cap (c g)).
Qed.

Lemma exec_recvs_no_panic (k : nat) (g : Gate) :
  panicked (exec (times k [Recv]) g) = false.
Proof.
  revert g. induction k as [|k IH]; intros g; [done|].
  rewrite times_S. simpl. by destruct (0 <? len (c g)).
Qed.

(** Inside its range [Add] does not panic, whatever the Gate holds. *)
Lemma Add_in_range_no_panic (g : Gate) (n : Z) (g' : Gate) :
  0 <= capacity g <= GoInt.max_int -> Z.abs n <= capacity g ->
  panicked (exec (Add g n) g') = false.
Proof.
  intros Hcap Hn. destruct (Z.lt_trichotomy n 0) as [Hneg|[->|Hpos]].
  - rewrite Add_negative by lia. apply exec_recvs_no_panic.
  - by rewrite Add_zero by lia.
  - rewrite Add_positive by lia. apply exec_sends_no_panic.
Qed.

(** C5, at the input where the code departs from it: on a Gate of capacity
    4 holding 2 units, [Add] of the least [int] is far outside the range
    (its absolute value is 2^63), yet the call does not panic: it returns
    with the Gate untouched.  For every other [int] the check is the one
    the claim states ([Add_out_of_range], [Add_in_range_no_panic]). *)
Theorem Add_min_int_escapes_range_check :
  GoInt.is_int GoInt.min_int
  ∧ capacity (gate_of 4 2) < Z.abs GoInt.min_int
  ∧ exec (Add (gate_of 4 2) GoInt.min_int) (gate_of 4 2) = Returns (gate_of 4 2)
  ∧ exec (Add (gate_of 4 2) 5) (gate_of 4 2)
    = Panics "gate: out of range Add argument" (gate_of 4 2)
  ∧ exec (Add (gate_of 4 2) (-5)) (gate_of 4 2)
    = Panics "gate: out of range Add argument" (gate_of 4 2).
Proof. repeat split; by vm_compute. Qed.

(** C6: inside the range, [Add n] with [n > 0] performs exactly the
    primitives of [n] Lock calls in a row, and with [n < 0] those of [-n]
    Unlock calls in a row, so alone or interleaved with other goroutines
    it ends where they end; [Add 0] performs nothing. *)
Theorem Add_is_repeated_Lock_or_Unlock (g : Gate) (n : Z) :
  0 <= capacity g <= GoInt.max_int ->
  (0 < n <= capacity g ->
     Add g n = times (Z.to_nat n) Lock
     ∧ ∀ g', exec (Add g n) g' = exec (times (Z.to_nat n) Lock) g')
  ∧ (- capacity g <= n < 0 ->
     Add g n = times (Z.to_nat (- n)) Unlock
     ∧ ∀ g', exec (Add g n) g' = exec (times (Z.to_nat (- n)) Unlock) g')
  ∧ (n = 0 -> Add g n = [] ∧ ∀ g', exec (Add g n) g' = Returns g').
Proof.
  intros Hcap. split; [|split]; intros Hn.
  - assert (Add g n = times (Z.to_nat n) Lock) as -> by (apply Add_positive; lia).
    done.
  - assert (Add g n = times (Z.to_nat (- n)) Unlock) as ->
      by (apply Add_negative; lia).
    done.
  - subst n. by rewrite Add_zero by lia.
Qed.

Lemma Add_is_repeated_Lock_or_Unlock_witness :
  exec (Add (gate_of 4 1) 3) (gate_of 4 1) = exec (Lock ++ Lock ++ Lock) (gate_of 4 1)
  ∧ exec (Add (gate_of 4 3) (-2)) (gate_of 4 3) = exec (Unlock ++ Unlock) (gate_of 4 3)
  ∧ exec (Add (gate_of 4 3) 0) (gate_of 4 3) = Returns (gate_of 4 3).
Proof.
  assert (Hcap : ∀ l, 0 <= capacity (gate_of 4 l) <= GoInt.max_int)
    by (intros l; by vm_compute).
  split; [|split].
  - apply (proj1 (Add_is_repeated_Lock_or_Unlock (gate_of 4 1) 3 (Hcap 1))).
    by vm_compute.
  - apply (proj1 (proj2 (Add_is_repeated_Lock_or_Unlock (gate_of 4 3) (-2) (Hcap 3)))).
    by vm_compute.
  - apply (proj2 (proj2 (Add_is_repeated_Lock_or_Unlock (gate_of 4 3) 0 (Hcap 3)))).
    reflexivity.
Defined.

(** The net effect of a batch that fits: [held] moves by [n]. *)
Lemma Add_net_effect (g : Gate) (n : Z) :
  capacity g <= GoInt.max_int -> gate_inv g ->
  0 <= held g + n <= capacity g ->
  exec (Add g n) g = Returns (with_len g (held g + n)).
Proof.
  unfold gate_inv, held, capacity. intros Hcap Hinv Hfit.
  destruct (Z.lt_trichotomy n 0) as [Hneg|[->|Hpos]].
  - rewrite Add_negative by (unfold capacity; lia).
    rewrite exec_recvs by lia. f_equal. f_equal. lia.
  - rewrite Add_zero by (unfold capacity; lia). simpl.
    by rewrite Z.add_0_r, with_len_same.
  - rewrite Add_positive by (unfold capacity; lia).
    rewrite exec_sends by lia. f_equal. f_equal. lia.
Qed.

(** C9: negating the least [int] wraps around to the least [int] itself,
    so on every Gate of positive capacity [Add] of that value passes the
    range check, performs no channel operation and returns with the Gate
    untouched instead of panicking. *)
Theorem Add_min_int_is_silent_noop (g : Gate) :
  0 < capacity g ->
  GoInt.neg GoInt.min_int = GoInt.min_int
  ∧ (GoInt.min_int >? capacity g) || (GoInt.neg GoInt.min_int >? capacity g) = false
  ∧ Add g GoInt.min_int = []
  ∧ ∀ g', exec (Add g GoInt.min_int) g' = Returns g'.
Proof.
  intros Hcap.
  assert (Hcheck : (GoInt.min_int >? capacity g)
                   || (GoInt.neg GoInt.min_int >? capacity g) = false).
  { rewrite neg_min_int, orb_diag, min_int_value.
    by destruct (Z.gtb_spec (-9223372036854775808) (capacity g)); [lia|]. }
  assert (Hprog : Add g GoInt.min_int = []).
  { unfold Add. fold (capacity g). rewrite Hcheck, neg_min_int.
    change (GoInt.min_int >? 0) with false. cbv iota.
    apply for_loop_nonpos. rewrite min_int_value. lia. }
  repeat split; [done|done|]. intros g'. by rewrite Hprog.
Qed.

Lemma Add_min_int_is_silent_noop_witness :
  Add (gate_of 1 1) GoInt.min_int = []
  ∧ exec (Add (gate_of 1 1) GoInt.min_int) (gate_of 1 1) = Returns (gate_of 1 1).
Proof.
  assert (Hcap : 0 < capacity (gate_of 1 1)) by reflexivity.
  pose proof (Add_min_int_is_silent_noop (gate_of 1 1) Hcap) as (_ & _ & Hprog & Hexec).
  split; [exact Hprog | apply Hexec].
Defined.

(** ** Wait *)

Lemma Wait_unrolled (g : Gate) :
  capacity g <= GoInt.max_int ->
  Wait g = [MutexLock]
             ++ times (Z.to_nat (capacity g)) Lock
             ++ times (Z.to_nat (capacity g)) Unlock
             ++ [MutexUnlock].
Proof.
  intros Hcap. unfold Wait. fold (capacity g). by rewrite !for_loop_times.
Qed.

Lemma exec_Wait_idle (g : Gate) :
  0 <= capacity g <= GoInt.max_int -> held g = 0 -> m g = false ->
  exec (Wait g) g = Returns g.
Proof.
  intros Hcap Hheld Hm. rewrite Wait_unrolled by lia.
  unfold held, capacity, Lock, Unlock in *.
  cbn [app exec perform]. rewrite Hm.
  rewrite exec_app, exec_sends by (simpl; lia).
  rewrite exec_app, exec_recvs by (simpl; lia).
  simpl. destruct g as [[cp l] mu]. simpl in *. subst.
  unfold with_mutex, with_len. simpl. do 3 f_equal. lia.
Qed.

Lemma exec_Wait_returns_only_idle (g g' : Gate) :
  0 <= capacity g <= GoInt.max_int -> gate_inv g ->
  exec (Wait g) g = Returns g' -> held g = 0 ∧ m g = false.
Proof.
  intros Hcap Hinv. rewrite Wait_unrolled by lia.
  unfold gate_inv, held, capacity, Lock, Unlock in *.
  cbn [app exec perform]. destruct (m g) eqn:Hm; [done|].
  destruct (Z.eq_dec (len (c g)) 0) as [Hz|Hnz]; [done|].
  rewrite exec_app, exec_sends_block by (simpl; lia). done.
Qed.

(** C7: Wait takes the mutex, performs the primitives of [capacity] Lock
    calls and then those of [capacity] Unlock calls, and releases the
    mutex.  Run on an idle Gate (nothing held, mutex free) it returns and
    leaves the Gate exactly as it was; and whenever it returns, nothing is
    held and the capacity is what it was. *)
Theorem Wait_drains_and_restores (g : Gate) :
  0 <= capacity g <= GoInt.max_int ->
  Wait g = [MutexLock]
             ++ times (Z.to_nat (capacity g)) Lock
             ++ times (Z.to_nat (capacity g)) Unlock
             ++ [MutexUnlock]
  ∧ (held g = 0 -> m g = false -> exec (Wait g) g = Returns g)
  ∧ (∀ g', gate_inv g -> exec (Wait g) g = Returns g' ->
       g' = g ∧ held g' = 0 ∧ capacity g' = capacity g).
Proof.
  intros Hcap. split; [|split].
  - apply Wait_unrolled. lia.
  - by apply exec_Wait_idle.
  - intros g' Hinv Hret.
    destruct (exec_Wait_returns_only_idle g g' Hcap Hinv Hret) as [Hheld Hm].
    rewrite exec_Wait_idle in Hret by done. by injection Hret as <-.
Qed.

Lemma Wait_drains_and_restores_witness :
  Wait (gate_of 3 0) = [MutexLock; Send; Send; Send; Recv; Recv; Recv; MutexUnlock]
  ∧ exec (Wait (gate_of 3 0)) (gate_of 3 0) = Returns (gate_of 3 0).
Proof.
  assert (Hcap : 0 <= capacity (gate_of 3 0) <= GoInt.max_int) by (by vm_compute).
  pose proof (Wait_drains_and_restores (gate_of 3 0) Hcap) as (Hprog & Hidle & _).
  split; [exact Hprog | by apply Hidle].
Defined.

(** ** The capacity invariant *)

Section Invariant.

(** The capacity the Gate was made with. *)
Variable max : Z.

Lemma New_bounded (g : Gate) : New max = Some g -> bounded max g.
Proof.
  intros [-> Hmax]%New_inv. unfold bounded, held, capacity. simpl. lia.
Qed.

(** No primitive moves [held] out of range or changes the capacity,
    whether it returns, blocks or panics. *)
Lemma perform_bounded (a : action) (g : Gate) :
  bounded max g -> bounded max (state_of (perform a g)).
Proof.
  unfold bounded, held, capacity. intros Hg. destruct a; simpl.
  - destruct (Z.ltb_spec (len (c g)) (cap (c g))); simpl; lia.
  - destruct (Z.ltb_spec 0 (len (c g))); simpl; lia.
  - by destruct (m g).
  - by destruct (m g).
  - done.
Qed.

Lemma exec_bounded (p : prog) (g : Gate) :
  bounded max g -> bounded max (state_of (exec p g)).
Proof.
  revert g. induction p as [|a p IH]; intros g Hg; simpl; [done|].
  pose proof (perform_bounded a g Hg) as Ha.
  destruct (perform a g); simpl in *; auto.
Qed.

Lemma step_bounded (cfg cfg' : config) :
  step cfg cfg' -> bounded max (gate cfg) -> bounded max (gate cfg').
Proof.
  intros Hstep Hg. destruct Hstep as [g g' ts i a rest _ Hperform|]; simpl in *.
  - pose proof (perform_bounded a g Hg) as Ha. by rewrite Hperform in Ha.
  - done.
Qed.

Lemma steps_bounded (cfg cfg' : config) :
  steps cfg cfg' -> bounded max (gate cfg) -> bounded max (gate cfg').
Proof. induction 1; eauto using step_bounded. Qed.

End Invariant.

(** C1: a Gate made by [New max] with [max > 0] keeps
    [0 <= held <= capacity = max] at every point: in every configuration
    that any number of goroutines, each making any sequence of Lock,
    Unlock, Add, Done and Wait calls, can reach by interleaving their
    channel and mutex operations, and after every prefix of the operations
    of one goroutine running such a sequence alone, however it ends. *)
Theorem held_stays_within_capacity
    (max : Z) (g0 : Gate) (callers : list (list call)) (cfg : config)
    (ks : list call) (p : prog) :
  0 < max -> New max = Some g0 ->
  (steps (Config g0 (script g0 <$> callers)) cfg ->
     0 <= held (gate cfg) <= capacity (gate cfg) ∧ capacity (gate cfg) = max)
  ∧ (p `prefix_of` script g0 ks ->
     0 <= held (state_of (exec p g0)) <= capacity (state_of (exec p g0))
     ∧ capacity (state_of (exec p g0)) = max).
Proof.
  intros Hmax HNew. pose proof (New_bounded max g0 HNew) as Hg0. split.
  - intros Hsteps. by apply (steps_bounded max _ cfg Hsteps).
  - intros _. by apply exec_bounded.
Qed.

Lemma held_stays_within_capacity_witness :
  (0 <= held (gate_of 2 1) <= capacity (gate_of 2 1) ∧ capacity (gate_of 2 1) = 2)
  ∧ (0 <= held (state_of (exec [Send; Recv; Recv] (gate_of 2 0)))
       <= capacity (state_of (exec [Send; Recv; Recv] (gate_of 2 0)))
     ∧ capacity (state_of (exec [Send; Recv; Recv] (gate_of 2 0))) = 2).
Proof.
  pose proof (held_stays_within_capacity 2 (gate_of 2 0)
                [[CallLock; CallUnlock]; [CallAdd 2]]
                (Config (gate_of 2 1) [[Recv]; [Send; Send]])
                [CallLock; CallAdd (-2); CallWait] [Send; Recv; Recv]
                eq_refl eq_refl) as [Hpool Hseq].
  split.
  - apply Hpool. apply rtc_once.
    exact (step_perform (gate_of 2 0) (gate_of 2 1)
             [[Send; Recv]; [Send; Send]] 0%nat Send [Recv] eq_refl eq_refl).
  - apply Hseq. exists [MutexLock; Send; Send; Recv; Recv; MutexUnlock]. reflexivity.
Defined.

(** ** Blocking *)

Lemma no_release_insert (ts : list prog) (i : nat) (a : action) (rest : prog) :
  no_release ts -> ts !! i = Some (a :: rest) -> no_release (<[i := rest]> ts).
Proof.
  intros Hts Hi j p [(<- & <- & _)|[_ Hj]]%list_lookup_insert_Some.
  - intros Hin. apply (Hts i (a :: rest) Hi). by right.
  - by apply (Hts j p).
Qed.

Lemma full_and_waiting_step (i : nat) (rest : prog) (cfg cfg' : config) :
  step cfg cfg' -> full_and_waiting i rest cfg -> full_and_waiting i rest cfg'.
Proof.
  unfold full_and_waiting, held, capacity.
  intros Hstep (Hi & Hts & Hfull).
  destruct Hstep as [g g' ts k a rest' Hk Hperform|g ts k j rk rj _ _ Hj];
    simpl in *.
  - destruct a; simpl in Hperform.
    + destruct (Z.ltb_spec (len (c g)) (cap (c g))); [lia|done].
    + exfalso. apply (Hts k _ Hk). by left.
    + destruct (m g); [done|]. injection Hperform as <-.
      destruct (decide (k = i)) as [->|Hne]; [congruence|].
      rewrite list_lookup_insert_ne by done. eauto using no_release_insert.
    + destruct (m g); [|done]. injection Hperform as <-.
      destruct (decide (k = i)) as [->|Hne]; [congruence|].
      rewrite list_lookup_insert_ne by done. eauto using no_release_insert.
    + done.
  - exfalso. apply (Hts j _ Hj). by left.
Qed.

(** While the Gate is full and nobody has a release to perform, a pending
    Lock stays pending. *)
Lemma Lock_pending_while_no_release (i : nat) (rest : prog) (cfg cfg' : config) :
  steps cfg cfg' -> full_and_waiting i rest cfg -> full_and_waiting i rest cfg'.
Proof. induction 1; eauto using full_and_waiting_step. Qed.

Lemma handover_step (cfg cfg' : config) :
  step cfg cfg' ->
  (cfg = handover_start -> cfg' = handover_released ∨ cfg' = handover_done)
  ∧ (cfg = handover_released -> cfg' = handover_done)
  ∧ cfg ≠ handover_done.
Proof.
  unfold handover_start, handover_released, handover_done, Lock, Unlock.
  intros [g g' ts i a rest Hi Hperform|g ts i j ri rj Hne Hi Hj];
    (split; [|split]); intros [= -> ->].
  - destruct i as [|[|i]]; simplify_eq/=; auto.
  - destruct i as [|[|i]]; simplify_eq/=; auto.
  - destruct i as [|[|i]]; simplify_eq/=.
  - destruct i as [|[|i]], j as [|[|j]]; simplify_eq/=; auto.
  - destruct i as [|[|i]], j as [|[|j]]; simplify_eq/=.
  - destruct i as [|[|i]], j as [|[|j]]; simplify_eq/=.
Qed.

Lemma handover_reachable (cfg : config) :
  steps handover_start cfg ->
  cfg = handover_start ∨ cfg = handover_released ∨ cfg = handover_done.
Proof.
  revert cfg. apply rtc_ind_r; [auto|].
  intros cfg cfg' _ Hstep IH.
  destruct (handover_step _ _ Hstep) as (Hs & Hr & Hd).
  destruct IH as [-> | [-> | ->]]; [destruct Hs; auto | | done].
  right; right. by apply Hr.
Qed.

(** C8: on a Gate of capacity 1 whose unit is held, a second Lock does not
    return before the holder's Unlock, and returns after it.  On its own
    the second Lock blocks; in any pool of goroutines it stays pending for
    as long as nobody has a release to perform; once the holder is in
    Unlock, no interleaving completes the Lock before the Unlock, and every
    interleaving goes on to the configuration where both have returned and
    the unit is held again, now by the second goroutine. *)
Theorem second_Lock_waits_for_Unlock :
  New 1 = Some (gate_of 1 0)
  ∧ exec Lock (gate_of 1 0) = Returns (gate_of 1 1)
  ∧ exec Lock (gate_of 1 1) = Blocks (gate_of 1 1)
  ∧ (∀ ts i rest cfg,
       ts !! i = Some (Lock ++ rest) -> no_release ts ->
       steps (Config (gate_of 1 1) ts) cfg ->
       pool cfg !! i = Some (Lock ++ rest))
  ∧ (∀ cfg, steps handover_start cfg ->
       pool cfg !! 1%nat = Some [] -> pool cfg !! 0%nat = Some [])
  ∧ (∀ cfg, steps handover_start cfg -> steps cfg handover_done)
  ∧ pool handover_done = [[]; []]
  ∧ held (gate handover_done) = 1.
Proof.
  repeat split.
  - intros ts i rest cfg Hi Hts Hsteps.
    by destruct (Lock_pending_while_no_release i rest _ cfg Hsteps) as [? _].
  - by intros cfg [-> | [-> | ->]]%handover_reachable.
  - intros cfg [-> | [-> | ->]]%handover_reachable.
    + apply rtc_once.
      exact (step_handoff (gate_of 1 1) [Unlock; Lock] 1%nat 0%nat [] []
               ltac:(done) eq_refl eq_refl).
    + apply rtc_once.
      exact (step_perform (gate_of 1 0) (gate_of 1 1) [[]; Lock] 1%nat Send []
               eq_refl eq_refl).
    + apply rtc_refl.
Qed.

(** * Further properties of the methods *)

(** ** Add, alone *)

Lemma exec_recvs_block (k : nat) (g : Gate) :
  0 <= len (c g) < Z.of_nat k ->
  exec (times k [Recv]) g = Blocks (with_len g 0).
Proof.
  revert g. induction k as [|k IH]; intros g Hheld; [lia|].
  rewrite times_S. simpl.
  destruct (Z.ltb_spec 0 (len (c g))) as [Hlt|Hge].
  - rewrite IH; simpl; [done|lia].
  - assert (with_len g 0 = g) as ->; [|done].
    replace 0 with (len (c g)) by lia. apply with_len_same.
Qed.

(** [Add] reads nothing of the Gate but its capacity. *)
Lemma Add_with_len (g : Gate) (l n : Z) : Add (with_len g l) n = Add g n.
Proof. reflexivity. Qed.

(** The range check of [Add] is exact on every [int] but the least one: the
    call panics, before any channel operation and leaving the Gate as it
    is, if and only if the absolute value of its argument exceeds the
    capacity. *)
Theorem Add_panics_iff_out_of_range (g : Gate) (n : Z) :
  0 <= capacity g <= GoInt.max_int -> GoInt.is_int n -> n ≠ GoInt.min_int ->
  (panicked (exec (Add g n) g) = true <-> capacity g < Z.abs n)
  ∧ (capacity g < Z.abs n ->
     exec (Add g n) g = Panics "gate: out of range Add argument" g).
Proof.
  intros Hcap Hn Hmin. split; [split|].
  - intros Hpanic. destruct (Z.lt_ge_cases (capacity g) (Z.abs n)); [done|].
    by rewrite Add_in_range_no_panic in Hpanic.
  - intros Habs. by rewrite (proj2 (Add_out_of_range g n Hn Hmin Habs) g).
  - intros Habs. apply (Add_out_of_range g n Hn Hmin Habs).
Qed.

Lemma Add_panics_iff_out_of_range_witness :
  (panicked (exec (Add (gate_of 4 1) (-7)) (gate_of 4 1)) = true
   <-> capacity (gate_of 4 1) < Z.abs (-7))
  ∧ (panicked (exec (Add (gate_of 4 1) 3) (gate_of 4 1)) = true
     <-> capacity (gate_of 4 1) < Z.abs 3).
Proof.
  split.
  - apply (Add_panics_iff_out_of_range (gate_of 4 1) (-7)); by vm_compute.
  - apply (Add_panics_iff_out_of_range (gate_of 4 1) 3); by vm_compute.
Defined.

(** What an in-range [Add] does when nobody else touches the Gate.  If the
    batch fits it returns with [held] moved by [n].  If [n] asks for more
    units than are free it is not refused: it takes every free unit and
    blocks with the Gate full.  If [-n] gives back more units than are held
    it gives back all of them and blocks with the Gate empty. *)
Theorem Add_alone (g : Gate) (n : Z) :
  capacity g <= GoInt.max_int -> gate_inv g -> Z.abs n <= capacity g ->
  (0 <= held g + n <= capacity g ->
     exec (Add g n) g = Returns (with_len g (held g + n)))
  ∧ (capacity g < held g + n ->
     exec (Add g n) g = Blocks (with_len g (capacity g)))
  ∧ (held g + n < 0 ->
     exec (Add g n) g = Blocks (with_len g 0)).
Proof.
  unfold gate_inv, held, capacity. intros Hcap Hinv Hn. split; [|split]; intros Hfit.
  - apply Add_net_effect; unfold gate_inv, held, capacity; lia.
  - rewrite Add_positive by (unfold capacity; lia).
    apply exec_sends_block. lia.
  - rewrite Add_negative by (unfold capacity; lia).
    apply exec_recvs_block. lia.
Qed.

Lemma Add_alone_witness :
  exec (Add (gate_of 4 1) 3) (gate_of 4 1) = Returns (gate_of 4 4)
  ∧ exec (Add (gate_of 4 2) 3) (gate_of 4 2) = Blocks (gate_of 4 4)
  ∧ exec (Add (gate_of 4 2) (-3)) (gate_of 4 2) = Blocks (gate_of 4 0).
Proof.
  assert (Hcap : ∀ l, capacity (gate_of 4 l) <= GoInt.max_int)
    by (intros l; by vm_compute).
  split; [|split].
  - apply (Add_alone (gate_of 4 1) 3 (Hcap 1)); by vm_compute.
  - apply (Add_alone (gate_of 4 2) 3 (Hcap 2)); by vm_compute.
  - apply (Add_alone (gate_of 4 2) (-3) (Hcap 2)); by vm_compute.
Defined.

(** Round trips.  An [Add n] that fits, followed by [Add (-n)], leaves the
    Gate exactly as it was; so does [Add n] for [n >= 0] followed by [n]
    calls of Done, the way a wait group is used. *)
Theorem Add_then_release_restores (g : Gate) (n : Z) :
  capacity g <= GoInt.max_int -> gate_inv g -> 0 <= held g + n <= capacity g ->
  exec (Add g n ++ Add g (- n)) g = Returns g
  ∧ (0 <= n -> exec (Add g n ++ times (Z.to_nat n) Done) g = Returns g).
Proof.
  intros Hcap Hinv Hfit. rewrite !exec_app, Add_net_effect by done.
  unfold gate_inv, held, capacity in *. split.
  - rewrite <- (Add_with_len g (len (c g) + n)).
    rewrite Add_net_effect;
      [|unfold gate_inv, held, capacity; simpl; lia..].
    unfold held. simpl. rewrite with_len_twice.
    replace (len (c g) + n + - n) with (len (c g)) by lia.
    by rewrite with_len_same.
  - intros Hn. unfold Done. rewrite exec_recvs by (simpl; lia).
    simpl. rewrite with_len_twice.
    replace (len (c g) + n - Z.of_nat (Z.to_nat n)) with (len (c g)) by lia.
    by rewrite with_len_same.
Qed.

Lemma Add_then_release_restores_witness :
  exec (Add (gate_of 4 1) 3 ++ Add (gate_of 4 1) (-3)) (gate_of 4 1) = Returns (gate_of 4 1)
  ∧ exec (Add (gate_of 4 1) 3 ++ [Recv; Recv; Recv]) (gate_of 4 1) = Returns (gate_of 4 1).
Proof.
  assert (Hcap : capacity (gate_of 4 1) <= GoInt.max_int) by (by vm_compute).
  assert (Hinv : gate_inv (gate_of 4 1)) by (by vm_compute).
  assert (Hfit : 0 <= held (gate_of 4 1) + 3 <= capacity (gate_of 4 1))
    by (by vm_compute).
  pose proof (Add_then_release_restores (gate_of 4 1) 3 Hcap Hinv Hfit) as [Hadd Hdone].
  split; [exact Hadd | apply Hdone; by vm_compute].
Defined.

(** Two batches in a row that both fit end where the one batch of their sum
    ends. *)
Theorem Add_twice_is_Add_of_sum (g : Gate) (a b : Z) :
  capacity g <= GoInt.max_int -> gate_inv g ->
  0 <= held g + a <= capacity g -> 0 <= held g + a + b <= capacity g ->
  exec (Add g a ++ Add g b) g = exec (Add g (a + b)) g
  ∧ exec (Add g (a + b)) g = Returns (with_len g (held g + a + b)).
Proof.
  intros Hcap Hinv Ha Hab.
  assert (Hsum : exec (Add g (a + b)) g = Returns (with_len g (held g + a + b))).
  { rewrite Add_net_effect by (done || lia). do 2 f_equal. lia. }
  split; [|done]. rewrite Hsum, exec_app, Add_net_effect by done.
  unfold gate_inv, held, capacity in *.
  rewrite <- (Add_with_len g (len (c g) + a)).
  rewrite Add_net_effect; [|unfold gate_inv, held, capacity; simpl; lia..].
  unfold held. simpl. by rewrite with_len_twice.
Qed.

Lemma Add_twice_is_Add_of_sum_witness :
  exec (Add (gate_of 4 1) 3 ++ Add (gate_of 4 1) (-2)) (gate_of 4 1)
  = exec (Add (gate_of 4 1) (3 + -2)) (gate_of 4 1)
  ∧ exec (Add (gate_of 4 1) (3 + -2)) (gate_of 4 1) = Returns (gate_of 4 2).
Proof.
  apply (Add_twice_is_Add_of_sum (gate_of 4 1) 3 (-2)); by vm_compute.
Defined.

(** ** How many Locks a new Gate takes *)

(** The capacity is the number of Lock calls that do not block: on the Gate
    [New max] returns, any [k <= max] Lock calls in a row all return,
    leaving [k] units held, and with [k > max] of them the call number
    [max + 1] blocks, with the Gate full. *)
Theorem New_then_Locks (max : Z) (g : Gate) (k : nat) :
  New max = Some g ->
  (Z.of_nat k <= max -> exec (times k Lock) g = Returns (gate_of max (Z.of_nat k)))
  ∧ (max < Z.of_nat k ->
     exec (times (Z.to_nat max) Lock) g = Returns (gate_of max max)
     ∧ exec (times k Lock) g = Blocks (gate_of max max)).
Proof.
  intros [-> Hmax]%New_inv. unfold Lock. split; intros Hk.
  - by rewrite exec_sends by (simpl; lia).
  - split.
    + rewrite exec_sends by (simpl; lia). simpl.
      unfold gate_of, with_len. simpl. do 3 f_equal. lia.
    + by rewrite exec_sends_block by (simpl; lia).
Qed.

Lemma New_then_Locks_witness :
  exec (Lock ++ Lock) (gate_of 2 0) = Returns (gate_of 2 2)
  ∧ exec (Lock ++ Lock ++ Lock) (gate_of 2 0) = Blocks (gate_of 2 2).
Proof.
  split.
  - apply (proj1 (New_then_Locks 2 (gate_of 2 0) 2 eq_refl)). by vm_compute.
  - apply (proj2 (New_then_Locks 2 (gate_of 2 0) 3 eq_refl)). by vm_compute.
Defined.

(** ** Wait, when it cannot go through *)

(** Alone, Wait does not return on a Gate that is in use.  If another Wait
    has the mutex, it blocks at once and touches nothing.  If units are
    held, it takes the mutex and every free unit and then blocks: the Gate
    is left full with the mutex locked, so a goroutine that calls Wait
    while holding a unit itself can never be woken by its own Unlock. *)
Theorem Wait_alone_on_busy_gate (g : Gate) :
  0 <= capacity g <= GoInt.max_int -> gate_inv g ->
  (m g = true -> exec (Wait g) g = Blocks g)
  ∧ (m g = false -> 0 < held g ->
     exec (Wait g) g = Blocks (with_mutex (with_len g (capacity g)) true)).
Proof.
  intros Hcap Hinv. rewrite Wait_unrolled by lia.
  unfold gate_inv, held, capacity, Lock, Unlock in *.
  cbn [app exec perform]. split.
  - by intros ->.
  - intros -> Hheld. by rewrite exec_app, exec_sends_block by (simpl; lia).
Qed.

Lemma Wait_alone_on_busy_gate_witness :
  exec (Wait (gate_of 3 1)) (gate_of 3 1)
  = Blocks {| c := {| cap := 3; len := 3 |}; m := true |}
  ∧ exec (Wait (with_mutex (gate_of 3 0) true)) (with_mutex (gate_of 3 0) true)
    = Blocks (with_mutex (gate_of 3 0) true).
Proof.
  split.
  - apply (Wait_alone_on_busy_gate (gate_of 3 1)); by vm_compute.
  - apply (Wait_alone_on_busy_gate (with_mutex (gate_of 3 0) true)); by vm_compute.
Defined.

(** ** The default gate *)

Lemma exec_Add_then_Dones (g : Gate) (n : Z) :
  capacity g <= GoInt.max_int -> gate_inv g -> 0 <= n -> held g + n <= capacity g ->
  exec (Add g n ++ times (Z.to_nat n) Done) g = Returns g.
Proof.
  intros Hcap Hinv Hn Hfit.
  rewrite exec_app, Add_net_effect by (done || unfold gate_inv in *; lia).
  unfold gate_inv, held, capacity, Done in *.
  rewrite exec_recvs by (simpl; lia). simpl. rewrite with_len_twice.
  replace (len (c g) + n - Z.of_nat (Z.to_nat n)) with (len (c g)) by lia.
  by rewrite with_len_same.
Qed.

(** With [runtime.NumCPU()] a positive [int], initialising the package does
    not panic: the default gate has that capacity and nothing held.  On it,
    as many package-level [Lock] calls as there are CPUs return; the
    package-level [Wait] called before anything else returns and changes
    nothing; [Add] takes (and [Done] gives back) what fits; [Add] panics on
    any argument whose absolute value exceeds the number of CPUs, the least
    [int] apart; and an [Unlock] before any [Lock] blocks. *)
Theorem defaultGate_usable (num_cpu : Z) :
  0 < num_cpu <= GoInt.max_int ->
  ∃ dg, defaultGate num_cpu = Some dg
    ∧ capacity dg = num_cpu ∧ held dg = 0
    ∧ exec (times (Z.to_nat num_cpu) (Pkg.Lock dg)) dg = Returns (with_len dg num_cpu)
    ∧ exec (Pkg.Wait dg) dg = Returns dg
    ∧ (∀ n, 0 <= n <= num_cpu ->
         exec (Pkg.Add dg n) dg = Returns (with_len dg n)
         ∧ exec (Pkg.Add dg n ++ times (Z.to_nat n) (Pkg.Done dg)) dg = Returns dg)
    ∧ (∀ n, GoInt.is_int n -> n ≠ GoInt.min_int -> num_cpu < Z.abs n ->
         exec (Pkg.Add dg n) dg = Panics "gate: out of range Add argument" dg)
    ∧ exec (Pkg.Unlock dg) dg = Blocks dg.
Proof.
  intros Hcpu. exists (gate_of num_cpu 0). unfold defaultGate.
  rewrite New_nonnegative by lia.
  unfold Pkg.Lock, Pkg.Wait, Pkg.Add, Pkg.Done, Pkg.Unlock.
  assert (Hinv : gate_inv (gate_of num_cpu 0))
    by (unfold gate_inv, held, capacity; simpl; lia).
  assert (Hcap : capacity (gate_of num_cpu 0) = num_cpu) by done.
  assert (Hheld : held (gate_of num_cpu 0) = 0) by done.
  repeat split.
  - unfold Lock. rewrite exec_sends by (simpl; lia). simpl.
    unfold with_len. simpl. do 3 f_equal. lia.
  - apply exec_Wait_idle; rewrite ?Hcap; (done || lia).
  - rewrite Add_net_effect by (rewrite ?Hcap, ?Hheld; (done || lia)). done.
  - apply exec_Add_then_Dones; rewrite ?Hcap, ?Hheld; (done || lia).
  - intros n Hn Hmin Habs.
    assert (Hlt : capacity (gate_of num_cpu 0) < Z.abs n) by (by rewrite Hcap).
    apply (Add_out_of_range _ n Hn Hmin Hlt).
Qed.

Lemma defaultGate_usable_witness :
  ∃ dg, defaultGate 8 = Some dg
    ∧ capacity dg = 8 ∧ held dg = 0
    ∧ exec (times 8 (Pkg.Lock dg)) dg = Returns (with_len dg 8)
    ∧ exec (Pkg.Wait dg) dg = Returns dg
    ∧ (∀ n, 0 <= n <= 8 ->
         exec (Pkg.Add dg n) dg = Returns (with_len dg n)
         ∧ exec (Pkg.Add dg n ++ times (Z.to_nat n) (Pkg.Done dg)) dg = Returns dg)
    ∧ (∀ n, GoInt.is_int n -> n ≠ GoInt.min_int -> 8 < Z.abs n ->
         exec (Pkg.Add dg n) dg = Panics "gate: out of range Add argument" dg)
    ∧ exec (Pkg.Unlock dg) dg = Blocks dg.
Proof. apply (defaultGate_usable 8). by vm_compute. Defined.

(** * Accounting for units and for the mutex *)

(** ** Sums over a pool *)

Lemma total_insert (f : prog -> Z) (ts : list prog) (i : nat) (p q : prog) :
  ts !! i = Some p -> total f (<[i := q]> ts) = total f ts - f p + f q.
Proof.
  revert i. induction ts as [|t ts IH]; intros [|i] Hi; simplify_eq/=; [lia|].
  rewrite (IH i Hi). lia.
Qed.

Lemma total_ext (f f' : prog -> Z) (ts : list prog) :
  Forall (λ p, f p = f' p) ts -> total f ts = total f' ts.
Proof. induction 1 as [|p ts Hp _ IH]; simpl; [done|]. by rewrite Hp, IH. Qed.

Lemma total_nonneg (f : prog -> Z) (ts : list prog) :
  Forall (λ p, 0 <= f p) ts -> 0 <= total f ts.
Proof. induction 1; simpl; lia. Qed.

Lemma total_ge_one (f : prog -> Z) (ts : list prog) (i : nat) (p : prog) :
  Forall (λ p, 0 <= f p) ts -> ts !! i = Some p -> f p <= total f ts.
Proof.
  intros Hts. revert i. induction Hts as [|t ts Ht Hts IH]; intros [|i] Hi;
    simplify_eq/=.
  - pose proof (total_nonneg f ts Hts). lia.
  - specialize (IH i Hi). lia.
Qed.

Lemma total_ge_two (f : prog -> Z) (ts : list prog) (i j : nat) (p q : prog) :
  Forall (λ p, 0 <= f p) ts -> i ≠ j ->
  ts !! i = Some p -> ts !! j = Some q -> f p + f q <= total f ts.
Proof.
  intros Hts. revert i j.
  induction Hts as [|t ts Ht Hts IH]; intros [|i] [|j] Hne Hi Hj; simplify_eq/=.
  - pose proof (total_ge_one f ts j q Hts Hj). lia.
  - pose proof (total_ge_one f ts i p Hts Hi). lia.
  - assert (i ≠ j) as Hne' by congruence. specialize (IH i j Hne' Hi Hj). lia.
Qed.

(** ** Weights *)

Lemma weight_cons (w : action -> Z) (a : action) (p : prog) :
  weight w (a :: p) = w a + weight w p.
Proof. reflexivity. Qed.

Lemma weight_app (w : action -> Z) (p q : prog) :
  weight w (p ++ q) = weight w p + weight w q.
Proof. induction p as [|a p IH]; simpl; [done|]. rewrite IH. lia. Qed.

Lemma weight_times (w : action -> Z) (k : nat) (p : prog) :
  weight w (times k p) = Z.of_nat k * weight w p.
Proof.
  induction k as [|k IH]; [done|]. rewrite times_S, weight_app, IH. lia.
Qed.

Lemma safe_nonneg (w : action -> Z) (p : prog) :
  safe w p = true -> 0 <= weight w p.
Proof. destruct p; cbn [safe]; intros [H _]%andb_prop; by apply Z.leb_le. Qed.

Lemma safe_tail (w : action -> Z) (a : action) (p : prog) :
  safe w (a :: p) = true -> safe w p = true.
Proof. cbn [safe]. by intros [_ H]%andb_prop. Qed.

Lemma safe_cons (w : action -> Z) (a : action) (p : prog) :
  0 <= weight w (a :: p) -> safe w p = true -> safe w (a :: p) = true.
Proof.
  intros Hw Hp. cbn [safe]. rewrite Hp, andb_true_r. by apply Z.leb_le.
Qed.

Lemma safe_app (w : action -> Z) (p q : prog) :
  safe w p = true -> safe w q = true -> safe w (p ++ q) = true.
Proof.
  intros Hp Hq. induction p as [|a p IH]; [done|].
  pose proof (safe_nonneg w _ Hp) as Hw. pose proof (safe_nonneg w _ Hq).
  simpl app. apply safe_cons; [|by eauto using safe_tail].
  change (a :: p ++ q) with ((a :: p) ++ q). rewrite weight_app. lia.
Qed.

(** Primitives of non-negative weight in front of a safe remainder. *)
Lemma safe_after_nonneg (w : action -> Z) (p q : prog) :
  Forall (λ a, 0 <= w a) p -> safe w q = true -> safe w (p ++ q) = true.
Proof.
  intros Hp Hq. induction Hp as [|a p Ha Hp IH]; [done|].
  simpl app. apply safe_cons; [|done].
  pose proof (safe_nonneg w _ IH). simpl. lia.
Qed.

(** [k] takes, then [k] returns, then a safe remainder. *)
Lemma safe_take_return (w : action -> Z) (a b : action) (k : nat) (r : prog) :
  w a + w b = 0 -> 0 <= w b -> safe w r = true ->
  safe w (times k [a] ++ times k [b] ++ r) = true.
Proof.
  intros Hab Hb. revert r. induction k as [|k IH]; intros r Hr; [done|].
  assert (times (S k) [b] = times k [b] ++ [b]) as ->.
  { clear. induction k as [|k IH]; [done|].
    rewrite times_S, IH at 1. by rewrite times_S. }
  rewrite times_S, <- !app_assoc. simpl app.
  assert (Hbr : safe w (b :: r) = true).
  { apply safe_cons; [|done]. pose proof (safe_nonneg w _ Hr). simpl. lia. }
  specialize (IH _ Hbr). apply safe_cons; [|done].
  pose proof (safe_nonneg w _ Hr).
  simpl. rewrite !weight_app, !weight_times. simpl. lia.
Qed.

(** ** Conservation *)

Section Accounting.

(** A weight on primitives and the quantity of the Gate it accounts for. *)
Variable w : action -> Z.
Variable quantity : Gate -> Z.
Hypothesis perform_quantity :
  ∀ a g g', perform a g = Returns g' -> quantity g' = quantity g - w a.
Hypothesis handoff_neutral : w Send + w Recv = 0.

Lemma step_conserves (cfg cfg' : config) :
  step cfg cfg' ->
  quantity (gate cfg') - total (weight w) (pool cfg')
  = quantity (gate cfg) - total (weight w) (pool cfg).
Proof.
  intros [g g' ts i a rest Hi Hperform|g ts i j ri rj Hne Hi Hj]; simpl.
  - rewrite (total_insert _ _ _ _ _ Hi), (perform_quantity _ _ _ Hperform).
    simpl. lia.
  - assert (Hj' : <[i := ri]> ts !! j = Some (Recv :: rj))
      by (by rewrite list_lookup_insert_ne).
    rewrite (total_insert _ _ _ _ _ Hj'), (total_insert _ _ _ _ _ Hi).
    simpl. lia.
Qed.

Lemma steps_conserve (cfg cfg' : config) :
  steps cfg cfg' ->
  quantity (gate cfg') - total (weight w) (pool cfg')
  = quantity (gate cfg) - total (weight w) (pool cfg).
Proof.
  induction 1 as [|cfg1 cfg2 cfg3 Hstep _ IH]; [done|].
  rewrite IH. by apply step_conserves.
Qed.

Lemma step_safe (cfg cfg' : config) :
  step cfg cfg' ->
  Forall (λ p, safe w p = true) (pool cfg) ->
  Forall (λ p, safe w p = true) (pool cfg').
Proof.
  intros [g g' ts i a rest Hi Hperform|g ts i j ri rj Hne Hi Hj] Hts; simpl in *.
  - apply Forall_insert; [done|].
    eapply safe_tail, (Forall_lookup_1 _ _ _ _ Hts Hi).
  - apply Forall_insert; [apply Forall_insert; [done|]|].
    + eapply safe_tail, (Forall_lookup_1 _ _ _ _ Hts Hi).
    + eapply safe_tail, (Forall_lookup_1 _ _ _ _ Hts Hj).
Qed.

Lemma steps_safe (cfg cfg' : config) :
  steps cfg cfg' ->
  Forall (λ p, safe w p = true) (pool cfg) ->
  Forall (λ p, safe w p = true) (pool cfg').
Proof. induction 1; eauto using step_safe. Qed.

End Accounting.

(** ** Units *)

Lemma perform_units (a : action) (g g' : Gate) :
  perform a g = Returns g' -> held g' = held g - unit_weight a.
Proof.
  unfold held. destruct a; simpl.
  - destruct (len (c g) <? cap (c g)); intros [= <-]; simpl; lia.
  - destruct (0 <? len (c g)); intros [= <-]; simpl; lia.
  - destruct (m g); intros [= <-]; simpl; lia.
  - destruct (m g); intros [= <-]; simpl; lia.
  - done.
Qed.

Lemma total_zero (f : prog -> Z) (ts : list prog) :
  Forall (λ p, f p = 0) ts -> total f ts = 0.
Proof. induction 1 as [|p ts Hp _ IH]; simpl; [done|]. lia. Qed.

(** Goroutines that give back what they take: the units they own add up to
    [held], and none owns a negative number. *)
Lemma units_accounting (max : Z) (g0 : Gate) (ts : list prog) (cfg : config) :
  New max = Some g0 -> Forall balanced ts -> steps (Config g0 ts) cfg ->
  total owned (pool cfg) = held (gate cfg)
  ∧ Forall (λ p, 0 <= owned p) (pool cfg)
  ∧ bounded max (gate cfg)
  ∧ Forall (λ p, safe unit_weight p = true) (pool cfg).
Proof.
  intros HNew Hts Hsteps.
  assert (Hsum : held (gate cfg) - total owned (pool cfg)
                 = held g0 - total owned ts)
    by exact (steps_conserve unit_weight held perform_units eq_refl _ _ Hsteps).
  assert (Hsafe : Forall (λ p, safe unit_weight p = true) (pool cfg)).
  { apply (steps_safe unit_weight _ _ Hsteps). simpl.
    eapply Forall_impl; [exact Hts|]. by intros p [_ ?]. }
  rewrite (total_zero owned ts) in Hsum.
  - destruct (New_inv _ _ HNew) as [-> _].
    change (held (gate_of max 0)) with 0 in Hsum.
    split; [lia|]. split; [|split; [|done]].
    + eapply Forall_impl; [exact Hsafe|]. intros p. apply safe_nonneg.
    + apply (steps_bounded max _ _ Hsteps). simpl. by apply New_bounded.
  - eapply Forall_impl; [exact Hts|]. by intros p [? _].
Qed.

(** How balanced goroutines are put together. *)
Lemma balanced_app (p q : prog) : balanced p -> balanced q -> balanced (p ++ q).
Proof.
  unfold balanced, owned. intros [Hp Hsp] [Hq Hsq].
  rewrite weight_app, Hp, Hq. split; [done|]. by apply safe_app.
Qed.

Lemma balanced_times (k : nat) (p : prog) : balanced p -> balanced (times k p).
Proof.
  intros Hp. induction k as [|k IH]; [done|].
  rewrite times_S. by apply balanced_app.
Qed.

Lemma balanced_take_return (k : nat) : balanced (times k [Send] ++ times k [Recv]).
Proof.
  split.
  - unfold owned. rewrite weight_app, !weight_times. simpl. lia.
  - rewrite <- (app_nil_r (times k [Recv])). by apply safe_take_return.
Qed.

Lemma balanced_Lock_Unlock : balanced (Lock ++ Unlock) ∧ balanced (Lock ++ Done).
Proof. done. Qed.

Lemma balanced_Add_release (g : Gate) (n : Z) :
  capacity g <= GoInt.max_int -> 0 < n <= capacity g ->
  balanced (Add g n ++ Add g (- n))
  ∧ balanced (Add g n ++ times (Z.to_nat n) Done).
Proof.
  intros Hcap Hn. rewrite Add_positive, Add_negative by lia.
  rewrite Z.opp_involutive. split; apply balanced_take_return.
Qed.

Lemma balanced_Wait (g : Gate) :
  0 <= capacity g <= GoInt.max_int -> balanced (Wait g).
Proof.
  intros Hcap. rewrite Wait_unrolled by lia. unfold Lock, Unlock. split.
  - unfold owned. rewrite !weight_app, !weight_times. simpl. lia.
  - simpl app. apply safe_cons.
    + rewrite weight_cons, !weight_app, !weight_times. simpl. lia.
    + by apply safe_take_return.
Qed.

(** The Gate does what it is for.  When every goroutine gives back what it
    takes (Lock ... Unlock, Add n ... n times Done, Wait, in any number and
    order), then at every moment of every interleaving the units the
    goroutines own add up to [held], which is at most the capacity: no
    goroutine owns more than [max] units, and no two own more than [max]
    between them. *)
Theorem owners_never_exceed_capacity
    (max : Z) (g0 : Gate) (ts : list prog) (cfg : config) :
  New max = Some g0 -> Forall balanced ts -> steps (Config g0 ts) cfg ->
  total owned (pool cfg) = held (gate cfg)
  ∧ held (gate cfg) <= max
  ∧ (∀ i p, pool cfg !! i = Some p -> 0 <= owned p <= max)
  ∧ (∀ i j p q, i ≠ j -> pool cfg !! i = Some p -> pool cfg !! j = Some q ->
       owned p + owned q <= max).
Proof.
  intros HNew Hts Hsteps.
  destruct (units_accounting max g0 ts cfg HNew Hts Hsteps)
    as (Hsum & Hpos & [Hheld Hcap] & _).
  split; [done|]. split; [lia|]. split.
  - intros i p Hi. split; [apply (Forall_lookup_1 _ _ _ _ Hpos Hi)|].
    pose proof (total_ge_one owned _ _ _ Hpos Hi). lia.
  - intros i j p q Hne Hi Hj.
    pose proof (total_ge_two owned _ _ _ _ _ Hpos Hne Hi Hj). lia.
Qed.

Lemma owners_never_exceed_capacity_witness :
  total owned [[Recv]; Wait (gate_of 2 0); [Send; Recv; Recv]] = held (gate_of 2 2)
  ∧ held (gate_of 2 2) <= 2.
Proof.
  assert (Hts : Forall balanced
                  [Lock ++ Unlock; Wait (gate_of 2 0);
                   Add (gate_of 2 0) 2 ++ Done ++ Done]).
  { repeat constructor. }
  assert (Hsteps : steps
            (Config (gate_of 2 0)
               [Lock ++ Unlock; Wait (gate_of 2 0);
                Add (gate_of 2 0) 2 ++ Done ++ Done])
            (Config (gate_of 2 2)
               [[Recv]; Wait (gate_of 2 0); [Send; Recv; Recv]])).
  { eapply rtc_l.
    - exact (step_perform (gate_of 2 0) (gate_of 2 1)
               [[Send; Recv]; Wait (gate_of 2 0); [Send; Send; Recv; Recv]]
               0%nat Send [Recv] eq_refl eq_refl).
    - apply rtc_once.
      exact (step_perform (gate_of 2 1) (gate_of 2 2)
               [[Recv]; Wait (gate_of 2 0); [Send; Send; Recv; Recv]]
               2%nat Send [Send; Recv; Recv] eq_refl eq_refl). }
  pose proof (owners_never_exceed_capacity 2 (gate_of 2 0) _ _ eq_refl Hts Hsteps)
    as (Hsum & Hle & _).
  split; [exact Hsum | exact Hle].
Defined.

Lemma safe_drop_prefix (w : action -> Z) (p q : prog) :
  safe w (p ++ q) = true -> safe w q = true.
Proof. induction p as [|a p IH]; [done|]. intros Hpq. eapply IH, safe_tail, Hpq. Qed.

Lemma safe_not_holding (p : prog) :
  safe unit_weight p = true -> owned p = 0 -> holding p = false.
Proof.
  destruct p as [|[] p]; try done.
  intros Hp%safe_tail%safe_nonneg. unfold owned. rewrite weight_cons. simpl. lia.
Qed.

(** What Wait waits for.  Among goroutines that give back what they take,
    at the moment one of them has completed the first loop of Wait (what
    it has left is the second loop, the deferred Unlock of the mutex, and
    whatever it does after), it owns every unit of the Gate and no other
    goroutine owns any: none is between a Lock and its Unlock. *)
Theorem Wait_has_the_gate_to_itself
    (max : Z) (g0 : Gate) (ts : list prog) (cfg : config) (i : nat) (rest : prog) :
  max <= GoInt.max_int ->
  New max = Some g0 -> Forall balanced ts -> steps (Config g0 ts) cfg ->
  pool cfg !! i = Some (for_loop (cap (c g0)) [Recv] ++ [MutexUnlock] ++ rest) ->
  held (gate cfg) = max
  ∧ ∀ j q, j ≠ i -> pool cfg !! j = Some q -> owned q = 0 ∧ holding q = false.
Proof.
  intros Hmax HNew Hts Hsteps Hi.
  destruct (units_accounting max g0 ts cfg HNew Hts Hsteps)
    as (Hsum & Hpos & [Hheld Hcap] & Hsafe).
  destruct (New_inv _ _ HNew) as [-> Hmax0]. simpl in Hi.
  rewrite for_loop_times in Hi by done.
  pose proof (Forall_lookup_1 _ _ _ _ Hsafe Hi) as Hsi.
  pose proof (safe_nonneg _ _ (safe_drop_prefix _ _ _ Hsi)) as Hrest.
  pose proof (total_ge_one owned _ _ _ Hpos Hi) as Hown.
  unfold owned in Hown at 1. rewrite weight_app, weight_times in Hown.
  rewrite weight_cons in Hrest. simpl in Hown, Hrest.
  split; [lia|]. intros j q Hne Hj.
  assert (Hq : owned q = 0).
  { pose proof (total_ge_two owned _ _ _ _ _ Hpos Hne Hj Hi) as Hboth.
    pose proof (Forall_lookup_1 _ _ _ _ Hpos Hj) as Hq. simpl in Hq.
    unfold owned in Hboth at 2. rewrite weight_app, weight_times in Hboth.
    simpl in Hboth. lia. }
  split; [done|]. apply safe_not_holding; [|done].
  apply (Forall_lookup_1 _ _ _ _ Hsafe Hj).
Qed.

Lemma Wait_has_the_gate_to_itself_witness :
  held (with_mutex (gate_of 1 1) true) = 1
  ∧ ∀ j q, j ≠ 1%nat ->
      [Lock ++ Unlock; [Recv; MutexUnlock]] !! j = Some q ->
      owned q = 0 ∧ holding q = false.
Proof.
  assert (Hts : Forall balanced [Lock ++ Unlock; Wait (gate_of 1 0)])
    by repeat constructor.
  assert (Hsteps : steps
            (Config (gate_of 1 0) [Lock ++ Unlock; Wait (gate_of 1 0)])
            (Config (with_mutex (gate_of 1 1) true)
               [Lock ++ Unlock; [Recv; MutexUnlock]])).
  { eapply rtc_l.
    - exact (step_perform (gate_of 1 0) (with_mutex (gate_of 1 0) true)
               [[Send; Recv]; [MutexLock; Send; Recv; MutexUnlock]]
               1%nat MutexLock [Send; Recv; MutexUnlock] eq_refl eq_refl).
    - apply rtc_once.
      exact (step_perform (with_mutex (gate_of 1 0) true)
               (with_mutex (gate_of 1 1) true)
               [[Send; Recv]; [Send; Recv; MutexUnlock]]
               1%nat Send [Recv; MutexUnlock] eq_refl eq_refl). }
  exact (Wait_has_the_gate_to_itself 1 (gate_of 1 0) _ _ 1%nat []
           ltac:(by vm_compute) eq_refl Hts Hsteps eq_refl).
Defined.

(** ** The mutex *)

Lemma perform_mutex (a : action) (g g' : Gate) :
  perform a g = Returns g' -> Z.b2z (m g') = Z.b2z (m g) - mutex_weight a.
Proof.
  destruct a; simpl.
  - destruct (len (c g) <? cap (c g)); intros [= <-]; simpl; lia.
  - destruct (0 <? len (c g)); intros [= <-]; simpl; lia.
  - destruct (m g) eqn:Hm; intros [= <-]; simpl; lia.
  - destruct (m g) eqn:Hm; intros [= <-]; simpl; lia.
  - done.
Qed.

Lemma loop_from_Forall (P : action -> Prop) (fuel : nat) (i n : Z) (b : prog) :
  Forall P b -> Forall P (loop_from fuel i n b).
Proof.
  intros Hb. revert i. induction fuel as [|fuel IH]; intros i; simpl;
    destruct (i <? n); try done.
  apply Forall_app. eauto.
Qed.

(** Primitives that leave the mutex alone. *)
Lemma mutex_untouched (p : prog) :
  Forall (λ a, mutex_weight a = 0) p ->
  mutex_owned p = 0 ∧ safe mutex_weight p = true.
Proof.
  intros Hp. split.
  - unfold mutex_owned. induction Hp as [|a p Ha _ IH]; [done|].
    rewrite weight_cons. lia.
  - rewrite <- (app_nil_r p). apply safe_after_nonneg; [|done].
    eapply Forall_impl; [exact Hp|]. simpl. lia.
Qed.

Lemma Add_leaves_mutex (g : Gate) (n : Z) :
  Forall (λ a, mutex_weight a = 0) (Add g n).
Proof.
  unfold Add. destruct (_ || _); [by repeat constructor|].
  destruct (n >? 0); apply loop_from_Forall; by repeat constructor.
Qed.

Lemma Wait_brackets_mutex (g : Gate) :
  mutex_owned (Wait g) = 0 ∧ safe mutex_weight (Wait g) = true.
Proof.
  assert (Hloop : ∀ a, mutex_weight a = 0 ->
            Forall (λ a, mutex_weight a = 0) (for_loop (cap (c g)) [a])).
  { intros a Ha. apply loop_from_Forall. by repeat constructor. }
  pose proof (mutex_untouched _ (Hloop Send eq_refl)) as [Hs _].
  pose proof (mutex_untouched _ (Hloop Recv eq_refl)) as [Hr _].
  assert (Hsum : mutex_owned (Wait g) = 0).
  { unfold Wait, mutex_owned in *. rewrite !weight_app, Hs, Hr. done. }
  split; [done|]. unfold Wait. simpl app. apply safe_cons; [exact (Z.eq_le_incl _ _ (eq_sym Hsum))|].
  apply safe_after_nonneg.
  { eapply Forall_impl; [exact (Hloop Send eq_refl)|]. simpl. lia. }
  apply safe_after_nonneg; [|done].
  eapply Forall_impl; [exact (Hloop Recv eq_refl)|]. simpl. lia.
Qed.

(** Whatever the calls, the mutex operations of a goroutine come in
    lock/unlock pairs. *)
Lemma script_brackets_mutex (g : Gate) (ks : list call) :
  mutex_owned (script g ks) = 0 ∧ safe mutex_weight (script g ks) = true.
Proof.
  induction ks as [|k ks [IHw IHs]]; [done|].
  assert (Hk : mutex_owned (body g k) = 0 ∧ safe mutex_weight (body g k) = true).
  { destruct k; simpl; try done.
    - apply mutex_untouched, Add_leaves_mutex.
    - apply Wait_brackets_mutex. }
  destruct Hk as [Hkw Hks].
  change (script g (k :: ks)) with (body g k ++ script g ks).
  unfold mutex_owned in *. rewrite weight_app, Hkw, IHw.
  split; [done|]. by apply safe_app.
Qed.

(** Goroutines whose mutex operations come in lock/unlock pairs: those
    inside a Wait add up to the state of the mutex. *)
Lemma mutex_accounting (g0 : Gate) (ts : list prog) (cfg : config) :
  m g0 = false ->
  Forall (λ p, mutex_owned p = 0 ∧ safe mutex_weight p = true) ts ->
  steps (Config g0 ts) cfg ->
  total mutex_owned (pool cfg) = Z.b2z (m (gate cfg))
  ∧ Forall (λ p, safe mutex_weight p = true) (pool cfg)
  ∧ Forall (λ p, 0 <= mutex_owned p) (pool cfg).
Proof.
  intros Hm Hts Hsteps.
  assert (Hsum : Z.b2z (m (gate cfg)) - total mutex_owned (pool cfg)
                 = Z.b2z (m g0) - total mutex_owned ts)
    by exact (steps_conserve mutex_weight (λ g, Z.b2z (m g)) perform_mutex
                eq_refl _ _ Hsteps).
  assert (Hsafe : Forall (λ p, safe mutex_weight p = true) (pool cfg)).
  { apply (steps_safe mutex_weight _ _ Hsteps). simpl.
    eapply Forall_impl; [exact Hts|]. by intros p [_ ?]. }
  rewrite (total_zero mutex_owned ts), Hm in Hsum.
  2:{ eapply Forall_impl; [exact Hts|]. by intros p [? _]. }
  split; [simpl in Hsum; lia|]. split; [done|].
  eapply Forall_impl; [exact Hsafe|]. intros p. apply safe_nonneg.
Qed.

(** Wait calls exclude one another, and the deferred Unlock of the mutex is
    always legitimate.  Whatever methods the goroutines call and however
    they interleave: a goroutine about to run the deferred [g.m.Unlock()]
    finds the mutex locked, each goroutine is inside at most one Wait, and
    no two goroutines are inside a Wait at the same time. *)
Theorem Wait_calls_exclude_each_other
    (g0 : Gate) (callers : list (list call)) (cfg : config) :
  m g0 = false -> steps (Config g0 (script g0 <$> callers)) cfg ->
  total mutex_owned (pool cfg) = Z.b2z (m (gate cfg))
  ∧ (∀ i rest, pool cfg !! i = Some (MutexUnlock :: rest) -> m (gate cfg) = true)
  ∧ (∀ i p, pool cfg !! i = Some p -> 0 <= mutex_owned p <= 1)
  ∧ (∀ i j p q, i ≠ j -> pool cfg !! i = Some p -> pool cfg !! j = Some q ->
       mutex_owned p + mutex_owned q <= 1).
Proof.
  intros Hm Hsteps.
  destruct (mutex_accounting g0 (script g0 <$> callers) cfg Hm) as (Hsum & Hsafe & Hpos);
    [|done|].
  { apply Forall_fmap, Forall_true. intros ks. apply script_brackets_mutex. }
  assert (Hle : total mutex_owned (pool cfg) <= 1)
    by (destruct (m (gate cfg)); simpl in Hsum; lia).
  split; [done|]. split; [|split].
  - intros i rest Hi.
    pose proof (total_ge_one mutex_owned _ _ _ Hpos Hi) as Hown.
    pose proof (safe_nonneg _ _ (safe_tail _ _ _ (Forall_lookup_1 _ _ _ _ Hsafe Hi))).
    unfold mutex_owned in Hown at 1. rewrite weight_cons in Hown.
    destruct (m (gate cfg)); [done|]. simpl in *. lia.
  - intros i p Hi. split; [apply (Forall_lookup_1 _ _ _ _ Hpos Hi)|].
    pose proof (total_ge_one mutex_owned _ _ _ Hpos Hi). lia.
  - intros i j p q Hne Hi Hj.
    pose proof (total_ge_two mutex_owned _ _ _ _ _ Hpos Hne Hi Hj). lia.
Qed.

Lemma Wait_calls_exclude_each_other_witness :
  total mutex_owned [for_loop 1 [Send] ++ for_loop 1 [Recv] ++ [MutexUnlock];
                     Lock ++ Wait (gate_of 1 0)]
  = Z.b2z (m (with_mutex (gate_of 1 0) true)).
Proof.
  assert (Hsteps : steps
            (Config (gate_of 1 0)
               (script (gate_of 1 0) <$> [[CallWait]; [CallLock; CallWait]]))
            (Config (with_mutex (gate_of 1 0) true)
               [for_loop 1 [Send] ++ for_loop 1 [Recv] ++ [MutexUnlock];
                Lock ++ Wait (gate_of 1 0)])).
  { apply rtc_once.
    exact (step_perform (gate_of 1 0) (with_mutex (gate_of 1 0) true)
             [[MutexLock; Send; Recv; MutexUnlock];
              [Send; MutexLock; Send; Recv; MutexUnlock]]
             0%nat MutexLock [Send; Recv; MutexUnlock] eq_refl eq_refl). }
  exact (proj1 (Wait_calls_exclude_each_other (gate_of 1 0)
                  [[CallWait]; [CallLock; CallWait]] _ eq_refl Hsteps)).
Defined.

(** ** Lock and Unlock in pairs *)

Lemma paired_cases (p : prog) :
  paired p ->
  p = []
  ∨ (∃ r, p = Send :: r ∧ paired r ∧ owned p = 0)
  ∨ (∃ r, p = Recv :: r ∧ paired r ∧ owned p = 1).
Proof.
  intros [k [-> | ->]].
  - destruct k as [|k]; [by left|]. right; left.
    exists (Unlock ++ times k (Lock ++ Unlock)). split; [done|]. split.
    + exists k. by right.
    + unfold owned. rewrite weight_times. simpl. lia.
  - right; right. exists (times k (Lock ++ Unlock)). split; [done|]. split.
    + exists k. by left.
    + unfold owned. rewrite weight_app, weight_times. simpl. lia.
Qed.

Lemma paired_tail (a : action) (p : prog) : paired (a :: p) -> paired p.
Proof.
  intros [ | [(r & [= _ <-] & Hr & _) | (r & [= _ <-] & Hr & _)]]%paired_cases; done.
Qed.

Lemma paired_owned (p : prog) :
  paired p -> owned p = if holding p then 1 else 0.
Proof.
  by intros [-> | [(r & -> & _ & ->) | (r & -> & _ & ->)]]%paired_cases.
Qed.

Lemma step_paired (cfg cfg' : config) :
  step cfg cfg' -> Forall paired (pool cfg) -> Forall paired (pool cfg').
Proof.
  intros [g g' ts i a rest Hi Hperform|g ts i j ri rj Hne Hi Hj] Hts; simpl in *.
  - apply Forall_insert; [done|].
    eapply paired_tail, (Forall_lookup_1 _ _ _ _ Hts Hi).
  - apply Forall_insert; [apply Forall_insert; [done|]|].
    + eapply paired_tail, (Forall_lookup_1 _ _ _ _ Hts Hi).
    + eapply paired_tail, (Forall_lookup_1 _ _ _ _ Hts Hj).
Qed.

Lemma steps_paired (cfg cfg' : config) :
  steps cfg cfg' -> Forall paired (pool cfg) -> Forall paired (pool cfg').
Proof. induction 1; eauto using step_paired. Qed.

(** Either every goroutine is done, or one is about to Unlock, or one is
    about to Lock and nobody holds a unit. *)
Lemma paired_pool_cases (ts : list prog) :
  Forall paired ts ->
  Forall (λ p, p = []) ts
  ∨ (∃ i r, ts !! i = Some (Recv :: r))
  ∨ ((∃ i r, ts !! i = Some (Send :: r)) ∧ Forall (λ p, owned p = 0) ts).
Proof.
  induction 1 as [|p ts Hp Hts IH]; [by left|].
  destruct (paired_cases p Hp) as [-> | [(r & -> & _ & Hown) | (r & -> & _)]].
  - destruct IH as [Hnil | [(i & r & Hi) | [(i & r & Hi) Hzero]]].
    + left. by constructor.
    + right; left. by exists (S i), r.
    + right; right. split; [by exists (S i), r|]. by constructor.
  - destruct IH as [Hnil | [(i & r' & Hi) | [_ Hzero]]].
    + right; right. split; [by exists 0%nat, r|]. constructor; [done|].
      eapply Forall_impl; [exact Hnil|]. by intros ? ->.
    + right; left. by exists (S i), r'.
    + right; right. split; [by exists 0%nat, r|]. by constructor.
  - right; left. by exists 0%nat, r.
Qed.

(** Lock and Unlock used in pairs never deadlock and never let in more
    goroutines than the capacity.  On a Gate of capacity [max > 0], with
    any number of goroutines each running Lock, Unlock any number of
    times, in every configuration any interleaving reaches: every
    goroutine is about to Lock or about to Unlock; the goroutines between
    their Lock and their Unlock are exactly [held] many, at most [max]; and
    either all goroutines are done or some goroutine can move. *)
Theorem paired_Lock_Unlock_never_deadlock
    (max : Z) (g0 : Gate) (rounds : list nat) (cfg : config) :
  0 < max -> New max = Some g0 ->
  steps (Config g0 ((λ k, times k (Lock ++ Unlock)) <$> rounds)) cfg ->
  Forall paired (pool cfg)
  ∧ total (λ p, if holding p then 1 else 0) (pool cfg) = held (gate cfg)
  ∧ held (gate cfg) <= max
  ∧ (finished cfg ∨ ∃ cfg', step cfg cfg').
Proof.
  intros Hmax HNew Hsteps.
  assert (Hbal : Forall balanced ((λ k, times k (Lock ++ Unlock)) <$> rounds)).
  { apply Forall_fmap, Forall_true. intros k. by apply balanced_times. }
  destruct (units_accounting max g0 _ cfg HNew Hbal Hsteps)
    as (Hsum & Hpos & [Hheld Hcap] & _).
  assert (Hpaired : Forall paired (pool cfg)).
  { apply (steps_paired _ _ Hsteps). simpl.
    apply Forall_fmap, Forall_true. intros k. exists k. by left. }
  split; [done|]. split; [|split; [lia|]].
  { rewrite <- Hsum. symmetry. apply total_ext.
    eapply Forall_impl; [exact Hpaired|]. apply paired_owned. }
  unfold finished. destruct cfg as [g ts]. simpl in *.
  unfold held, capacity in *.
  destruct (paired_pool_cases ts Hpaired)
    as [Hnil | [(i & r & Hi) | [(i & r & Hi) Hzero]]]; [by left|right..].
  - pose proof (total_ge_one owned _ _ _ Hpos Hi) as Hown.
    unfold owned in Hown at 1. rewrite weight_cons in Hown.
    pose proof (Forall_lookup_1 _ _ _ _ Hpaired Hi) as Hr%paired_tail.
    pose proof (paired_owned r Hr) as Hor. unfold owned in Hor.
    assert (0 < len (c g)) as Hlen by (destruct (holding r); simpl in Hown; lia).
    eexists. eapply (step_perform g _ ts i Recv r Hi). simpl.
    by destruct (Z.ltb_spec 0 (len (c g))); [|lia].
  - rewrite (total_zero owned ts Hzero) in Hsum.
    eexists. eapply (step_perform g _ ts i Send r Hi). simpl.
    by destruct (Z.ltb_spec (len (c g)) (cap (c g))); [|lia].
Qed.

Lemma paired_Lock_Unlock_never_deadlock_witness :
  Forall paired [[Recv; Send; Recv]; [Send; Recv]]
  ∧ total (λ p, if holding p then 1 else 0) [[Recv; Send; Recv]; [Send; Recv]]
    = held (gate_of 1 1)
  ∧ held (gate_of 1 1) <= 1
  ∧ (finished (Config (gate_of 1 1) [[Recv; Send; Recv]; [Send; Recv]])
     ∨ ∃ cfg', step (Config (gate_of 1 1) [[Recv; Send; Recv]; [Send; Recv]]) cfg').
Proof.
  assert (Hsteps : steps
            (Config (gate_of 1 0) ((λ k, times k (Lock ++ Unlock)) <$> [2; 1]%nat))
            (Config (gate_of 1 1) [[Recv; Send; Recv]; [Send; Recv]])).
  { apply rtc_once.
    exact (step_perform (gate_of 1 0) (gate_of 1 1)
             [[Send; Recv; Send; Recv]; [Send; Recv]]
             0%nat Send [Recv; Send; Recv] eq_refl eq_refl). }
  exact (paired_Lock_Unlock_never_deadlock 1 (gate_of 1 0) [2; 1]%nat _
           eq_refl eq_refl Hsteps).
Defined.

(** ** Critical sections and Waits together *)

Lemma usages_prog_cons (n : nat) (u : usage) (us : list usage) :
  usages_prog n (u :: us) = usage_prog n u ++ usages_prog n us.
Proof. reflexivity. Qed.

Lemma script_app (g : Gate) (ks ks' : list call) :
  script g (ks ++ ks') = script g ks ++ script g ks'.
Proof.
  induction ks as [|k ks IH]; [done|].
  change (script g ((k :: ks) ++ ks')) with (body g k ++ script g (ks ++ ks')).
  change (script g (k :: ks)) with (body g k ++ script g ks).
  by rewrite IH, app_assoc.
Qed.

(** The calls of a list of usages perform the primitives [usages_prog]
    lists. *)
Lemma usages_script (g : Gate) (us : list usage) :
  0 <= capacity g <= GoInt.max_int ->
  script g (us ≫= usage_calls) = usages_prog (Z.to_nat (capacity g)) us.
Proof.
  intros Hcap. induction us as [|u us IH]; [done|].
  rewrite usages_prog_cons, <- IH.
  change ((u :: us) ≫= usage_calls) with (usage_calls u ++ (us ≫= usage_calls)).
  rewrite script_app. f_equal. destruct u; [done|].
  unfold script, usage_calls, usage_prog. simpl. rewrite app_nil_r.
  apply Wait_unrolled. lia.
Qed.

Lemma usage_weights (n : nat) (u : usage) :
  owned (usage_prog n u) = 0 ∧ mutex_owned (usage_prog n u) = 0.
Proof.
  destruct u; [done|]. unfold owned, mutex_owned, usage_prog, Lock, Unlock.
  rewrite !weight_app, !weight_times. simpl. lia.
Qed.

Lemma usages_weights (n : nat) (us : list usage) :
  owned (usages_prog n us) = 0 ∧ mutex_owned (usages_prog n us) = 0.
Proof.
  induction us as [|u us [IHo IHm]]; [done|].
  destruct (usage_weights n u) as [Ho Hm].
  rewrite usages_prog_cons. unfold owned, mutex_owned in *.
  rewrite !weight_app. lia.
Qed.

Lemma usages_balanced (n : nat) (us : list usage) : balanced (usages_prog n us).
Proof.
  induction us as [|u us IH]; [done|].
  rewrite usages_prog_cons. apply balanced_app; [|done].
  destruct u; [done|]. split; [apply usage_weights|].
  unfold usage_prog, Lock, Unlock. simpl app. apply safe_cons.
  - rewrite weight_cons, !weight_app, !weight_times. simpl. lia.
  - by apply safe_take_return.
Qed.

Lemma orderly_tail_release (n k : nat) (a : action) (p : prog) (us : list usage) :
  (k <= n)%nat ->
  a :: p = times k Unlock ++ [MutexUnlock] ++ usages_prog n us ->
  orderly n p.
Proof.
  intros Hk Hp. exists us. destruct k as [|k].
  - injection Hp as _ ->. by left.
  - rewrite times_S in Hp. injection Hp as _ ->.
    right; right; right. exists k. split; [lia|done].
Qed.

Lemma orderly_tail (n : nat) (a : action) (p : prog) :
  orderly n (a :: p) -> orderly n p.
Proof.
  intros (us & [Hp | [Hp | [(k & Hk & Hp) | (k & Hk & Hp)]]]).
  - destruct us as [|[] us]; [done|..]; rewrite usages_prog_cons in Hp.
    + injection Hp as _ ->. exists us. right; left. done.
    + unfold usage_prog in Hp. rewrite <- !app_assoc in Hp.
      injection Hp as _ ->. exists us. right; right; left.
      exists n. split; [lia|done].
  - injection Hp as _ ->. exists us. by left.
  - destruct k as [|k].
    + by apply (orderly_tail_release n n a p us).
    + rewrite times_S in Hp. injection Hp as _ ->. exists us.
      right; right; left. exists k. split; [lia|done].
  - by apply (orderly_tail_release n k a p us).
Qed.

(** Where an orderly goroutine can be, and what it then owns. *)
Lemma orderly_at (n : nat) (p : prog) :
  orderly n p ->
  match p with
  | [] | Recv :: _ | MutexUnlock :: _ => True
  | Send :: _ => owned p <= (Z.of_nat n - 1) * mutex_owned p
  | MutexLock :: _ => owned p = 0 ∧ mutex_owned p = 0
  | Panic _ :: _ => False
  end.
Proof.
  intros (us & [-> | [-> | [(k & Hk & ->) | (k & Hk & ->)]]]).
  - destruct us as [|u us]; [done|].
    destruct (usages_weights n us) as [Ho Hm].
    rewrite usages_prog_cons. unfold owned, mutex_owned in *.
    destruct u; unfold usage_prog, Lock, Unlock; simpl app; lazy beta iota.
    + rewrite !weight_cons, Ho, Hm. simpl. lia.
    + rewrite !weight_cons, !weight_app, !weight_times, Ho, Hm. simpl. lia.
  - done.
  - destruct (usages_weights n us) as [Ho Hm]. unfold owned, mutex_owned in *.
    destruct k as [|k].
    + destruct n; done.
    + rewrite times_S. unfold Lock, Unlock. simpl app. lazy beta iota.
      repeat first [rewrite weight_cons | rewrite weight_app | rewrite weight_times].
      rewrite Ho, Hm. simpl. lia.
  - destruct k; done.
Qed.

Lemma steps_tail_closed (P : prog -> Prop) (cfg cfg' : config) :
  (∀ a p, P (a :: p) -> P p) ->
  steps cfg cfg' -> Forall P (pool cfg) -> Forall P (pool cfg').
Proof.
  intros Htail. induction 1 as [|cfg1 cfg2 cfg3 Hstep _ IH]; [done|].
  intros Hts. apply IH. clear IH.
  destruct Hstep as [g g' ts i a rest Hi Hperform|g ts i j ri rj Hne Hi Hj];
    simpl in *.
  - apply Forall_insert; [done|].
    eapply Htail, (Forall_lookup_1 _ _ _ _ Hts Hi).
  - apply Forall_insert; [apply Forall_insert; [done|]|].
    + eapply Htail, (Forall_lookup_1 _ _ _ _ Hts Hi).
    + eapply Htail, (Forall_lookup_1 _ _ _ _ Hts Hj).
Qed.

Lemma pool_find (f : prog -> bool) (ts : list prog) :
  (∃ i p, ts !! i = Some p ∧ f p = true) ∨ Forall (λ p, f p = false) ts.
Proof.
  induction ts as [|t ts [(i & p & Hi & Hp) | Hnone]].
  - by right.
  - left. by exists (S i), p.
  - destruct (f t) eqn:Ht.
    + left. by exists 0%nat, t.
    + right. by constructor.
Qed.

Lemma total_le_scaled (f h : prog -> Z) (k : Z) (ts : list prog) :
  Forall (λ p, f p <= k * h p) ts -> total f ts <= k * total h ts.
Proof. induction 1; simpl; lia. Qed.

(** Goroutines going through critical sections and Waits are never all
    stuck. *)
Lemma usage_progress
    (max : Z) (g0 : Gate) (users : list (list usage)) (cfg : config) :
  0 < max <= GoInt.max_int -> New max = Some g0 ->
  steps (Config g0 ((λ us, script g0 (us ≫= usage_calls)) <$> users)) cfg ->
  finished cfg ∨ ∃ cfg', step cfg cfg'.
Proof.
  intros Hmax HNew Hsteps.
  destruct (New_inv _ _ HNew) as [-> _].
  set (n := Z.to_nat max).
  assert (Hinit : (λ us, script (gate_of max 0) (us ≫= usage_calls)) <$> users
                  = usages_prog n <$> users).
  { apply list_fmap_ext. intros _ us _. apply usages_script.
    unfold capacity. simpl. lia. }
  rewrite Hinit in Hsteps. clear Hinit.
  destruct (units_accounting max (gate_of max 0) (usages_prog n <$> users) cfg HNew)
    as (Hsum & Hpos & [Hheld Hcap] & Hsafe); [|done|].
  { apply Forall_fmap, Forall_true. intros us. apply usages_balanced. }
  destruct (mutex_accounting (gate_of max 0) (usages_prog n <$> users) cfg)
    as (Hmsum & Hmsafe & Hmpos); [done| |done|].
  { apply Forall_fmap, Forall_true. intros us. split; [apply usages_weights|].
    pose proof (script_brackets_mutex (gate_of max 0) (us ≫= usage_calls)) as [_ Hs].
    rewrite usages_script in Hs by (unfold capacity; simpl; lia). exact Hs. }
  assert (Hord : Forall (orderly n) (pool cfg)).
  { apply (steps_tail_closed _ _ _ (orderly_tail n) Hsteps). simpl.
    apply Forall_fmap, Forall_true. intros us. exists us. by left. }
  unfold finished. destruct cfg as [g ts]. simpl in *.
  unfold held, capacity in *.
  (* a goroutine about to give a unit back *)
  destruct (pool_find holding ts) as [(i & p & Hi & Hp) | Hnorecv].
  { right. destruct p as [|[] r]; try done.
    pose proof (total_ge_one owned _ _ _ Hpos Hi) as Hown.
    pose proof (safe_nonneg _ _ (safe_tail _ _ _ (Forall_lookup_1 _ _ _ _ Hsafe Hi)))
      as Hr.
    unfold owned in Hown at 1. rewrite weight_cons in Hown. simpl in Hown.
    eexists. eapply (step_perform g _ ts i Recv r Hi). simpl.
    by destruct (Z.ltb_spec 0 (len (c g))); [|lia]. }
  (* a goroutine about to leave Wait *)
  destruct (pool_find at_mutex_unlock ts) as [(i & p & Hi & Hp) | Hnounlock].
  { right. destruct p as [|[] r]; try done.
    pose proof (total_ge_one mutex_owned _ _ _ Hmpos Hi) as Hown.
    pose proof (safe_nonneg _ _ (safe_tail _ _ _ (Forall_lookup_1 _ _ _ _ Hmsafe Hi))).
    unfold mutex_owned in Hown at 1. rewrite weight_cons in Hown. simpl in Hown.
    assert (m g = true) as Hm by (destruct (m g); [done|simpl in *; lia]).
    eexists. eapply (step_perform g _ ts i MutexUnlock r Hi). simpl.
    by rewrite Hm. }
  (* nobody is about to release anything: what the others own is bounded
     by what the one goroutine inside Wait has taken so far *)
  assert (Hbound : Forall (λ p, owned p <= (Z.of_nat n - 1) * mutex_owned p) ts).
  { apply Forall_lookup. intros i p Hi.
    pose proof (orderly_at n p (Forall_lookup_1 _ _ _ _ Hord Hi)) as Hat.
    pose proof (Forall_lookup_1 _ _ _ _ Hnorecv Hi) as H1.
    pose proof (Forall_lookup_1 _ _ _ _ Hnounlock Hi) as H2.
    destruct p as [|[] r]; simpl in H1, H2; lazy beta iota in Hat; try done.
    - change (owned []) with 0. change (mutex_owned []) with 0. lia.
    - destruct Hat as [-> ->]. lia. }
  destruct (pool_find at_send ts) as [(i & p & Hi & Hp) | Hnosend].
  { right. destruct p as [|[] r]; try done.
    pose proof (total_le_scaled _ _ _ _ Hbound) as Hle.
    assert (len (c g) < cap (c g)) as Hroom.
    { rewrite Hmsum, Hsum in Hle. subst n.
      destruct (m g); simpl in Hle; lia. }
    eexists. eapply (step_perform g _ ts i Send r Hi). simpl.
    by destruct (Z.ltb_spec (len (c g)) (cap (c g))); [|lia]. }
  destruct (pool_find at_mutex_lock ts) as [(i & p & Hi & Hp) | Hnolock].
  { right. destruct p as [|[] r]; try done.
    assert (Hzero : Forall (λ p, mutex_owned p = 0) ts).
    { apply Forall_lookup. intros j q Hj.
      pose proof (orderly_at n q (Forall_lookup_1 _ _ _ _ Hord Hj)) as Hat.
      pose proof (Forall_lookup_1 _ _ _ _ Hnorecv Hj) as H1.
      pose proof (Forall_lookup_1 _ _ _ _ Hnounlock Hj) as H2.
      pose proof (Forall_lookup_1 _ _ _ _ Hnosend Hj) as H3.
      destruct q as [|[] r']; simpl in H1, H2, H3; lazy beta iota in Hat;
        try done.
      by destruct Hat. }
    rewrite (total_zero _ _ Hzero) in Hmsum.
    assert (m g = false) as Hm by (by destruct (m g)).
    eexists. eapply (step_perform g _ ts i MutexLock r Hi). simpl.
    by rewrite Hm. }
  left. apply Forall_lookup. intros i p Hi.
  pose proof (orderly_at n p (Forall_lookup_1 _ _ _ _ Hord Hi)) as Hat.
  pose proof (Forall_lookup_1 _ _ _ _ Hnorecv Hi) as H1.
  pose proof (Forall_lookup_1 _ _ _ _ Hnounlock Hi) as H2.
  pose proof (Forall_lookup_1 _ _ _ _ Hnosend Hi) as H3.
  pose proof (Forall_lookup_1 _ _ _ _ Hnolock Hi) as H4.
  by destruct p as [|[] r].
Qed.

(** Every step performs at least one of the primitives that remain. *)
Lemma step_remaining (cfg cfg' : config) :
  step cfg cfg' -> remaining cfg' < remaining cfg.
Proof.
  unfold remaining.
  intros [g g' ts i a rest Hi Hperform|g ts i j ri rj Hne Hi Hj]; simpl.
  - rewrite (total_insert _ _ _ _ _ Hi). simpl length. lia.
  - assert (Hj' : <[i := ri]> ts !! j = Some (Recv :: rj))
      by (by rewrite list_lookup_insert_ne).
    rewrite (total_insert _ _ _ _ _ Hj'), (total_insert _ _ _ _ _ Hi).
    simpl length. lia.
Qed.

Lemma remaining_nonneg (cfg : config) : 0 <= remaining cfg.
Proof. apply total_nonneg, Forall_true. intros p. lia. Qed.

Lemma nsteps_remaining (k : nat) (cfg cfg' : config) :
  nsteps step k cfg cfg' -> Z.of_nat k <= remaining cfg - remaining cfg'.
Proof.
  induction 1 as [|k cfg1 cfg2 cfg3 Hstep _ IH]; [lia|].
  pose proof (step_remaining _ _ Hstep). lia.
Qed.

(** Critical sections and Waits never deadlock, and every Wait returns.
    On a Gate of capacity [max > 0], with any number of goroutines each
    going through any list of critical sections (Lock, then Unlock) and
    Wait calls: in every configuration any interleaving reaches, either
    all goroutines are done or some goroutine can move; no run from there
    is longer than the number of primitives that remain, and wherever it
    stops it is again either done or able to move; and some run from there
    ends with every call of every goroutine returned.  So a run stops only
    when every call, each Wait included, has returned. *)
Theorem critical_sections_and_Waits_complete
    (max : Z) (g0 : Gate) (users : list (list usage)) (cfg : config) :
  0 < max <= GoInt.max_int -> New max = Some g0 ->
  steps (Config g0 ((λ us, script g0 (us ≫= usage_calls)) <$> users)) cfg ->
  (finished cfg ∨ ∃ cfg', step cfg cfg')
  ∧ (∀ k cfg', nsteps step k cfg cfg' ->
       Z.of_nat k <= remaining cfg
       ∧ (finished cfg' ∨ ∃ cfg'', step cfg' cfg''))
  ∧ (∃ cfg', steps cfg cfg' ∧ finished cfg').
Proof.
  intros Hmax HNew Hsteps. split; [by eapply usage_progress|]. split.
  - intros k cfg' Hk. split.
    + pose proof (nsteps_remaining _ _ _ Hk). pose proof (remaining_nonneg cfg'). lia.
    + eapply usage_progress; [done..|].
      etrans; [exact Hsteps|]. by eapply rtc_nsteps_2.
  - assert (Hgo : ∀ N cfg1,
              steps (Config g0 ((λ us, script g0 (us ≫= usage_calls)) <$> users)) cfg1 ->
              remaining cfg1 <= Z.of_nat N ->
              ∃ cfg', steps cfg1 cfg' ∧ finished cfg').
    { clear cfg Hsteps. induction N as [|N IH]; intros cfg1 Hreach HN.
      - destruct (usage_progress max g0 users cfg1 Hmax HNew Hreach)
          as [Hfin | [cfg2 Hstep]].
        + exists cfg1. by split.
        + pose proof (step_remaining _ _ Hstep).
          pose proof (remaining_nonneg cfg2). lia.
      - destruct (usage_progress max g0 users cfg1 Hmax HNew Hreach)
          as [Hfin | [cfg2 Hstep]].
        + exists cfg1. by split.
        + pose proof (step_remaining _ _ Hstep).
          destruct (IH cfg2) as (cfg' & Hto & Hfin); [by eapply rtc_r|lia|].
          exists cfg'. split; [by eapply rtc_l|done]. }
    apply (Hgo (Z.to_nat (remaining cfg))); [done|].
    pose proof (remaining_nonneg cfg). lia.
Qed.

Lemma critical_sections_and_Waits_complete_witness :
  ∃ cfg', steps (Config (gate_of 1 0) [[Send; Recv]; Wait (gate_of 1 0)]) cfg'
          ∧ finished cfg'.
Proof.
  exact (proj2 (proj2 (critical_sections_and_Waits_complete 1 (gate_of 1 0)
           [[Critical]; [WaitIdle]]
           (Config (gate_of 1 0) [[Send; Recv]; Wait (gate_of 1 0)])
           ltac:(by vm_compute) eq_refl (rtc_refl _ _)))).
Defined.

(** * Blocked for good *)

(** A Lock on a full Gate waits for a release, whatever the capacity: in a
    pool where no goroutine has a receive left to perform, through every
    interleaving the Lock stays pending and the Gate stays full. *)
Theorem Lock_on_full_gate_waits_for_release
    (g : Gate) (ts : list prog) (i : nat) (rest : prog) (cfg : config) :
  held g = capacity g -> ts !! i = Some (Lock ++ rest) -> no_release ts ->
  steps (Config g ts) cfg ->
  pool cfg !! i = Some (Lock ++ rest) ∧ held (gate cfg) = capacity (gate cfg).
Proof.
  intros Hfull Hi Hts Hsteps.
  by destruct (Lock_pending_while_no_release i rest _ cfg Hsteps) as (? & _ & ?).
Qed.

Lemma Lock_on_full_gate_waits_for_release_witness :
  [Lock ++ Lock; [MutexUnlock]] !! 0%nat = Some (Lock ++ Lock)
  ∧ held (with_mutex (gate_of 2 2) true) = capacity (with_mutex (gate_of 2 2) true).
Proof.
  assert (Hts : no_release [Lock ++ Lock; [MutexLock; MutexUnlock]]).
  { intros j p Hj. destruct j as [|[|j]]; simplify_eq/=;
      repeat (apply not_elem_of_cons; split; [done|]); apply not_elem_of_nil. }
  assert (Hsteps : steps
            (Config (gate_of 2 2) [Lock ++ Lock; [MutexLock; MutexUnlock]])
            (Config (with_mutex (gate_of 2 2) true) [Lock ++ Lock; [MutexUnlock]])).
  { apply rtc_once.
    exact (step_perform (gate_of 2 2) (with_mutex (gate_of 2 2) true)
             [[Send; Send]; [MutexLock; MutexUnlock]]
             1%nat MutexLock [MutexUnlock] eq_refl eq_refl). }
  exact (Lock_on_full_gate_waits_for_release (gate_of 2 2)
           [Lock ++ Lock; [MutexLock; MutexUnlock]] 0%nat Lock
           (Config (with_mutex (gate_of 2 2) true) [Lock ++ Lock; [MutexUnlock]])
           eq_refl eq_refl Hts Hsteps).
Defined.

Lemma no_acquire_insert (ts : list prog) (i : nat) (a : action) (rest : prog) :
  no_acquire ts -> ts !! i = Some (a :: rest) -> no_acquire (<[i := rest]> ts).
Proof.
  intros Hts Hi j p [(<- & <- & _)|[_ Hj]]%list_lookup_insert_Some.
  - intros Hin. apply (Hts i (a :: rest) Hi). by right.
  - by apply (Hts j p).
Qed.

Lemma empty_and_waiting_step (i : nat) (rest : prog) (cfg cfg' : config) :
  step cfg cfg' -> empty_and_waiting i rest cfg -> empty_and_waiting i rest cfg'.
Proof.
  unfold empty_and_waiting, held.
  intros Hstep (Hi & Hts & Hempty).
  destruct Hstep as [g g' ts k a rest' Hk Hperform|g ts k j rk rj _ Hk _];
    simpl in *.
  - destruct a; simpl in Hperform.
    + exfalso. apply (Hts k _ Hk). by left.
    + destruct (Z.ltb_spec 0 (len (c g))); [lia|done].
    + destruct (m g); [done|]. injection Hperform as <-.
      destruct (decide (k = i)) as [->|Hne]; [congruence|].
      rewrite list_lookup_insert_ne by done. eauto using no_acquire_insert.
    + destruct (m g); [|done]. injection Hperform as <-.
      destruct (decide (k = i)) as [->|Hne]; [congruence|].
      rewrite list_lookup_insert_ne by done. eauto using no_acquire_insert.
    + done.
  - exfalso. apply (Hts k _ Hk). by left.
Qed.

(** Giving back a unit that was never taken does not return and does not
    corrupt the Gate.  With nothing held, in a pool where no goroutine has
    a send left to perform, through every interleaving a pending Unlock
    (or Done, or negative Add) stays pending and [held] stays 0: it never
    goes negative, and nothing panics on account of it. *)
Theorem over_release_waits_for_an_acquire
    (g : Gate) (ts : list prog) (i : nat) (rest : prog) (cfg : config) :
  held g = 0 -> ts !! i = Some (Unlock ++ rest) -> no_acquire ts ->
  steps (Config g ts) cfg ->
  pool cfg !! i = Some (Unlock ++ rest) ∧ held (gate cfg) = 0.
Proof.
  intros Hempty Hi Hts Hsteps.
  assert (Hgo : ∀ cfg1 cfg2, steps cfg1 cfg2 ->
            empty_and_waiting i rest cfg1 -> empty_and_waiting i rest cfg2)
    by (induction 1; eauto using empty_and_waiting_step).
  by destruct (Hgo _ _ Hsteps) as (? & _ & ?).
Qed.

Lemma over_release_waits_for_an_acquire_witness :
  [Done ++ Done; [MutexUnlock]] !! 0%nat = Some (Unlock ++ Done)
  ∧ held (with_mutex (gate_of 2 0) true) = 0.
Proof.
  assert (Hts : no_acquire [Done ++ Done; [MutexLock; MutexUnlock]]).
  { intros j p Hj. destruct j as [|[|j]]; simplify_eq/=;
      repeat (apply not_elem_of_cons; split; [done|]); apply not_elem_of_nil. }
  assert (Hsteps : steps
            (Config (gate_of 2 0) [Done ++ Done; [MutexLock; MutexUnlock]])
            (Config (with_mutex (gate_of 2 0) true) [Done ++ Done; [MutexUnlock]])).
  { apply rtc_once.
    exact (step_perform (gate_of 2 0) (with_mutex (gate_of 2 0) true)
             [[Recv; Recv]; [MutexLock; MutexUnlock]]
             1%nat MutexLock [MutexUnlock] eq_refl eq_refl). }
  exact (over_release_waits_for_an_acquire (gate_of 2 0)
           [Done ++ Done; [MutexLock; MutexUnlock]] 0%nat Done
           (Config (with_mutex (gate_of 2 0) true) [Done ++ Done; [MutexUnlock]])
           eq_refl eq_refl Hts Hsteps).
Defined.

(** * Batches that deadlock *)

Lemma times_snoc (k : nat) (a : action) : times (S k) [a] = times k [a] ++ [a].
Proof.
  induction k as [|k IH]; [done|].
  rewrite times_S, IH at 1. by rewrite times_S.
Qed.

(** One goroutine performing [k] sends in a row, the others standing by. *)
Lemma steps_sends (k : nat) (g : Gate) (ts : list prog) (j : nat) (rest : prog) :
  ts !! j = Some (times k [Send] ++ rest) ->
  len (c g) + Z.of_nat k <= cap (c g) ->
  steps (Config g ts) (Config (with_len g (len (c g) + Z.of_nat k)) (<[j := rest]> ts)).
Proof.
  revert g ts. induction k as [|k IH]; intros g ts Hj Hroom.
  - simpl in Hj. rewrite Z.add_0_r, with_len_same, list_insert_id by done.
    apply rtc_refl.
  - rewrite times_S in Hj. simpl in Hj.
    eapply rtc_l.
    + apply (step_perform g (with_len g (len (c g) + 1)) ts j Send _ Hj). simpl.
      by destruct (Z.ltb_spec (len (c g)) (cap (c g))); [|lia].
    + pose proof (lookup_lt_Some _ _ _ Hj) as Hlen.
      pose proof (IH (with_len g (len (c g) + 1))
                    (<[j := times k [Send] ++ rest]> ts)) as Hk.
      rewrite list_lookup_insert_eq, list_insert_insert_eq in Hk by done.
      simpl in Hk. rewrite with_len_twice in Hk.
      replace (len (c g) + 1 + Z.of_nat k) with (len (c g) + Z.of_nat (S k)) in Hk
        by lia.
      apply Hk; [done|lia].
Qed.

(** "Deadlocks are possible": [Add] takes its units one at a time, so two
    goroutines that each take a whole Gate of capacity [max >= 2] with
    [Add max] (and would give it back with [Add (-max)]) can each end up
    with a part of it.  Some interleaving reaches a configuration where the
    Gate is full, neither goroutine is done, and nothing can move. *)
Theorem concurrent_Adds_can_deadlock (max : Z) (g0 : Gate) :
  2 <= max <= GoInt.max_int -> New max = Some g0 ->
  ∃ cfg,
    steps (Config g0 [Add g0 max ++ Add g0 (- max); Add g0 max ++ Add g0 (- max)]) cfg
    ∧ held (gate cfg) = max
    ∧ ¬ finished cfg
    ∧ ∀ cfg', ¬ step cfg cfg'.
Proof.
  intros Hmax HNew. destruct (New_inv _ _ HNew) as [-> _].
  rewrite Add_positive, Add_negative by (unfold capacity; simpl; lia).
  rewrite Z.opp_involutive.
  destruct (Z.to_nat max) as [|[|k]] eqn:HN; [lia..|].
  set (R := times (S (S k)) [Recv]).
  exists (Config (gate_of max max) [times (S k) [Send] ++ R; [Send] ++ R]).
  split; [|split; [done|split]].
  - assert (HP : times (S (S k)) [Send] ++ R
                 = times (S k) [Send] ++ ([Send] ++ R))
      by (by rewrite (times_snoc (S k) Send), <- app_assoc).
    eapply rtc_l.
    + exact (step_perform (gate_of max 0) (gate_of max 1)
               [times (S (S k)) [Send] ++ R; times (S (S k)) [Send] ++ R]
               0%nat Send (times (S k) [Send] ++ R) eq_refl
               ltac:(simpl; by destruct (Z.ltb_spec 0 max); [|lia])).
    + change (steps
                (Config (gate_of max 1)
                   [times (S k) [Send] ++ R; times (S (S k)) [Send] ++ R])
                (Config (gate_of max max)
                   [times (S k) [Send] ++ R; [Send] ++ R])).
      rewrite HP.
      pose proof (steps_sends (S k) (gate_of max 1)
                    [times (S k) [Send] ++ R; times (S k) [Send] ++ ([Send] ++ R)]
                    1%nat ([Send] ++ R) eq_refl) as Hrun.
      change (len (c (gate_of max 1))) with 1 in Hrun.
      change (cap (c (gate_of max 1))) with max in Hrun.
      replace (1 + Z.of_nat (S k)) with max in Hrun by lia.
      apply Hrun. lia.
  - unfold finished. simpl. intros Hfin.
    by pose proof (Forall_lookup_1 _ _ 1%nat _ Hfin eq_refl).
  - intros cfg' Hstep. inversion Hstep as [g g' ts i a rest Hi Hperform|g ts i j ri rj Hne Hi Hj];
      subst.
    + destruct i as [|[|i]]; simplify_eq/=.
      * rewrite Z.ltb_irrefl in Hperform. done.
      * rewrite Z.ltb_irrefl in Hperform. done.
    + destruct j as [|[|j]]; simplify_eq/=.
Qed.

Lemma concurrent_Adds_can_deadlock_witness :
  ∃ cfg,
    steps (Config (gate_of 2 0)
             [Add (gate_of 2 0) 2 ++ Add (gate_of 2 0) (- 2);
              Add (gate_of 2 0) 2 ++ Add (gate_of 2 0) (- 2)]) cfg
    ∧ held (gate cfg) = 2
    ∧ ¬ finished cfg
    ∧ ∀ cfg', ¬ step cfg cfg'.
Proof.
  exact (concurrent_Adds_can_deadlock 2 (gate_of 2 0) ltac:(by vm_compute) eq_refl).
Defined.
